(** * kit: the request pipeline of [v2/server.go] and the [batch.Chunk] helper

    A shallow embedding of the Go sources.

    - [http.Header] is a finite map from canonical keys to value lists.
    - [http.ResponseWriter] is an interface: a type class, with the
      [interceptingWriter] decorator and a recording transport as instances.
    - A callback that is handed a [ResponseWriter] is taken to use the
      methods of the interface only; it is a tree of method calls
      ([writing]), run against whichever writer [ServeHTTP] passes.
    - Callbacks may have effects of their own (logging, counters, ...): they
      thread a state of an arbitrary type [St].
    - Go's [(value, error)] results are sums, [error] results are options.
    - The goroutine of [batch.Chunk] is run to completion; a panic of the
      runtime in [make] is the [None] of an option.

    Callbacks are assumed to return (a panicking callback is not modelled). *)

From stdpp Require Import gmap strings list.

Open Scope Z_scope.

(** ** Machine integers *)

(** [int64] addition: the mathematical sum reduced to [-2^63, 2^63). *)
Definition wrap64 (z : Z) : Z := (z + 2 ^ 63) `mod` 2 ^ 64 - 2 ^ 63.

Definition int64_add (a b : Z) : Z := wrap64 (a + b).

Definition in_int64 (z : Z) : Prop := - 2 ^ 63 <= z < 2 ^ 63.

(** ** net/http: headers *)

Definition StatusOK : Z := 200.
Definition StatusNoContent : Z := 204.
Definition StatusInternalServerError : Z := 500.

(** [http.Header], a [map[string][]string]. *)
Abbreviation header := (gmap string (list string)).

(** The entries of a header map in the order a [range] loop visits them. *)
Abbreviation header_entries := (list (string * list string)).

Section Headers.
(** [textproto.CanonicalMIMEHeaderKey], applied by every [Header] method. *)
Variable canon : string -> string.

Definition Header_Values (h : header) (key : string) : list string :=
  default [] (h !! canon key).

Definition Header_Get (h : header) (key : string) : string :=
  match Header_Values h key with
  | [] => EmptyString
  | v :: _ => v
  end.

Definition Header_Set (key value : string) (h : header) : header :=
  <[canon key := [value]]> h.

Definition Header_Add (key value : string) (h : header) : header :=
  <[canon key := Header_Values h key ++ [value]]> h.

(** [for _, v := range values { w.Header().Add(k, v) }] *)
Definition add_values (k : string) (values : list string) (h : header) : header :=
  foldl (fun h v => Header_Add k v h) h values.

(** [for k, values := range headerer.Headers() { ... }] *)
Definition add_headers (hs : header_entries) (h : header) : header :=
  foldl (fun h kv => add_values kv.1 kv.2 h) h hs.
End Headers.

(** ** Errors and the capabilities probed on them *)

(** A Go [error] value as the package sees it: its message and the result of
    each type assertion made on it. [None] is a failed assertion; otherwise
    the field holds what the method returns. [MarshalJSON] returns bytes and
    an optional failure. *)
Record error := mk_error {
  Error : string;
  error_Marshaler : option (string * option string);
  error_Headerer : option header_entries;
  error_StatusCoder : option Z;
}.

Definition errors_New (msg : string) : error :=
  {| Error := msg; error_Marshaler := None; error_Headerer := None;
     error_StatusCoder := None |}.

(** ** context *)

(** Modelled from the spec: the context keys [ContextKeyResponseHeaders] and
    [ContextKeyResponseSize] are declared outside the files at hand; they are
    two distinct keys, used to hand the observed response headers and the
    observed response size to finalizers. [OtherKey] stands for the keys of
    callers. *)
Inductive ctx_key :=
| ContextKeyResponseHeaders
| ContextKeyResponseSize
| OtherKey (name : string).

#[global] Instance ctx_key_eq_dec : EqDecision ctx_key.
Proof. solve_decision. Defined.

(** The values stored under those keys: an [http.Header], an [int64], or a
    value of a caller. *)
Inductive ctx_val :=
| VHeader (h : header)
| VInt64 (n : Z)
| VOther (v : string).

(** [context.Context]: a chain of key/value pairs with ancestor lookup. *)
Inductive Ctx :=
| Background
| WithValue (parent : Ctx) (key : ctx_key) (val : ctx_val).

Fixpoint Value (ctx : Ctx) (key : ctx_key) : option ctx_val :=
  match ctx with
  | Background => None
  | WithValue parent k v => if decide (k = key) then Some v else Value parent key
  end.

(** [*http.Request], as far as the pipeline reads it. *)
Record Request := {
  Context : Ctx;
  Method : string;
  Body : string;
}.

(** ** http.ResponseWriter *)

(** The three methods of the interface. [Header()] returns a map that callers
    mutate in place: [Header] reads it and [Header_store] is that mutation.
    [Write] returns the count of accepted bytes and an optional failure. *)
Class ResponseWriter (W : Type) := {
  Header : W -> header;
  Header_store : header -> W -> W;
  WriteHeader : Z -> W -> W;
  Write : string -> W -> Z * option error * W;
}.

(** What a function does with the [http.ResponseWriter] it was given. *)
Inductive writing (A : Type) : Type :=
| Return (a : A)
| GetHeader (k : header -> writing A)
| PutHeader (h : header) (k : writing A)
| DoWriteHeader (code : Z) (k : writing A)
| DoWrite (p : string) (k : Z -> option error -> writing A).
Arguments Return {A} a.
Arguments GetHeader {A} k.
Arguments PutHeader {A} h k.
Arguments DoWriteHeader {A} code k.
Arguments DoWrite {A} p k.

Fixpoint writing_bind {A B} (m : writing A) (f : A -> writing B) : writing B :=
  match m with
  | Return a => f a
  | GetHeader k => GetHeader (fun h => writing_bind (k h) f)
  | PutHeader h k => PutHeader h (writing_bind k f)
  | DoWriteHeader c k => DoWriteHeader c (writing_bind k f)
  | DoWrite p k => DoWrite p (fun n e => writing_bind (k n e) f)
  end.

#[global] Instance writing_ret : MRet writing := @Return.
#[global] Instance writing_mbind : MBind writing := fun A B f m => writing_bind m f.

(** [w.Header().Set(k, v)] and the like: an update of the header map. *)
Definition update_header (f : header -> header) : writing unit :=
  GetHeader (fun h => PutHeader (f h) (Return tt)).

Definition call_WriteHeader (code : Z) : writing unit :=
  DoWriteHeader code (Return tt).

Definition call_Write (p : string) : writing (Z * option error) :=
  DoWrite p (fun n e => Return (n, e)).

(** Running the calls against a writer. *)
Fixpoint run `{ResponseWriter W} {A} (m : writing A) (w : W) : A * W :=
  match m with
  | Return a => (a, w)
  | GetHeader k => run (k (Header w)) w
  | PutHeader h k => run k (Header_store h w)
  | DoWriteHeader c k => run k (WriteHeader c w)
  | DoWrite p k => let '(n, e, w') := Write p w in run (k n e) w'
  end.

(** ** interceptingWriter *)

(** [type interceptingWriter struct { http.ResponseWriter; code int; written int64 }] *)
Record interceptingWriter (W : Type) := {
  embedded : W;
  code : Z;
  written : Z;
}.
Arguments embedded {W} _.
Arguments code {W} _.
Arguments written {W} _.

(** [Header] is promoted from the embedded writer; [WriteHeader] and [Write]
    are the two methods the type overrides. *)
#[global] Instance interceptingWriter_ResponseWriter `{ResponseWriter W} :
  ResponseWriter (interceptingWriter W) := {
  Header iw := Header (embedded iw);
  Header_store h iw :=
    {| embedded := Header_store h (embedded iw); code := code iw; written := written iw |};
  WriteHeader c iw :=
    {| embedded := WriteHeader c (embedded iw); code := c; written := written iw |};
  Write p iw :=
    let '(n, err, w') := Write p (embedded iw) in
    (n, err, {| embedded := w'; code := code iw; written := int64_add (written iw) n |});
}.

(** [&interceptingWriter{w, http.StatusOK, 0}] *)
Definition intercept {W} (w : W) : interceptingWriter W :=
  {| embedded := w; code := StatusOK; written := 0 |}.

(** ** A recording transport *)

(** What reached the transport: a status line or a chunk of body, the latter
    with the answer the transport gave. *)
Inductive call :=
| CallWriteHeader (code : Z)
| CallWrite (p : string) (n : Z) (err : option error).

(** A writer that keeps the header map and the calls it received, in the
    manner of [httptest.ResponseRecorder]. How it answers a [Write] is left
    open: [answer], a function of the calls so far and the bytes offered. *)
Record ResponseRecorder := {
  HeaderMap : header;
  Calls : list call;
  answer : list call -> string -> Z * option error;
}.

#[global] Instance ResponseRecorder_ResponseWriter : ResponseWriter ResponseRecorder := {
  Header rec := HeaderMap rec;
  Header_store h rec :=
    {| HeaderMap := h; Calls := Calls rec; answer := answer rec |};
  WriteHeader c rec :=
    {| HeaderMap := HeaderMap rec; Calls := Calls rec ++ [CallWriteHeader c];
       answer := answer rec |};
  Write p rec :=
    let '(n, err) := answer rec (Calls rec) p in
    (n, err, {| HeaderMap := HeaderMap rec; Calls := Calls rec ++ [CallWrite p n err];
                answer := answer rec |});
}.

(** A transport that accepts everything, with the given initial headers. *)
Definition NewRecorder (h : header) : ResponseRecorder :=
  {| HeaderMap := h; Calls := [];
     answer := fun _ p => (Z.of_nat (String.length p), None) |}.

Definition is_CallWriteHeader (c : call) : bool :=
  match c with CallWriteHeader _ => true | CallWrite _ _ _ => false end.

Definition is_CallWrite (c : call) : bool :=
  match c with CallWriteHeader _ => false | CallWrite _ _ _ => true end.

(** The bytes of the body writes, in order. *)
Definition body_of (cs : list call) : list string :=
  omap (fun c => match c with CallWrite p _ _ => Some p | _ => None end) cs.

(** The status codes written, in order. *)
Definition statuses_of (cs : list call) : list Z :=
  omap (fun c => match c with CallWriteHeader c => Some c | _ => None end) cs.

(** The bytes the transport accepted, summed over the body writes. *)
Definition accepted (cs : list call) : Z :=
  foldr (fun c acc => match c with CallWrite _ n _ => n + acc | _ => acc end) 0 cs.

(** The code of the last status write, or [d] when there is none. *)
Definition last_status (d : Z) (cs : list call) : Z :=
  List.last (statuses_of cs) d.

(** ** Response values and encoding/json *)

(** A response value as [EncodeJSONResponse] and [encoding/json] see it: the
    outcome of the two type assertions ([None] when the value lacks the
    method) and the result of [json.Marshal]. *)
Class Response (Res : Type) := {
  as_Headerer : Res -> option header_entries;
  as_StatusCoder : Res -> option Z;
  json_Marshal : Res -> string + error;
}.

(** A value boxed as [any] carries the same three views. *)
Record any := {
  any_Headerer : option header_entries;
  any_StatusCoder : option Z;
  any_json : string + error;
}.

#[global] Instance any_Response : Response any := {
  as_Headerer := any_Headerer;
  as_StatusCoder := any_StatusCoder;
  json_Marshal := any_json;
}.

(** [var r any = response] *)
Definition to_any `{Response Res} (response : Res) : any :=
  {| any_Headerer := as_Headerer response;
     any_StatusCoder := as_StatusCoder response;
     any_json := json_Marshal response |}.

Definition newline : string := String (Ascii.ascii_of_nat 10) EmptyString.

(** [json.NewEncoder(w).Encode(v)]: marshal, append a line feed, hand the
    bytes to the writer in one [Write]; a marshalling failure is returned
    before anything is written, a write failure is returned as it is. *)
Definition Encoder_Encode `{Response Res} (v : Res) : writing (option error) :=
  match json_Marshal v with
  | inr e => Return (Some e)
  | inl b => '(_, err) ← call_Write (b +:+ newline); Return err
  end.

(** The error [encoding/json] reports when a [MarshalJSON] method fails. *)
Definition MarshalerError (type : string) (e : error) : error :=
  errors_New ("json: error calling MarshalJSON for type " +:+ type +:+ ": " +:+ Error e).

(** ** ReponseCode *)

(** [type ReponseCode struct { resp any; code int }] *)
Record ReponseCode := {
  resp : any;
  resp_code : Z;
}.

Definition StatusCode (r : ReponseCode) : Z := resp_code r.

Definition MarshalJSON (r : ReponseCode) : string + error := json_Marshal (resp r).

Definition AddStatusCode (resp : any) (code : Z) : ReponseCode :=
  {| resp := resp; resp_code := code |}.

(** [*ReponseCode] has the methods [StatusCode] and [MarshalJSON] and no
    [Headers]. [encoding/json] calls [MarshalJSON] on it; it re-validates and
    compacts the bytes a [MarshalJSON] returns, which leaves the output of
    [json.Marshal] as it is, and wraps a failure in a [MarshalerError]. *)
#[global] Instance ReponseCode_Response : Response ReponseCode := {
  as_Headerer _ := None;
  as_StatusCoder r := Some (StatusCode r);
  json_Marshal r :=
    match MarshalJSON r with
    | inl b => inl b
    | inr e => inr (MarshalerError "*kit.ReponseCode" e)
    end;
}.

(** ** The function types of the pipeline *)

(** Every callback threads the state [St] of its own effects. The writer a
    Go callback receives as the parameter [w] is implicit in [writing]. *)

(** [type RequestFunc func(context.Context, *http.Request) context.Context] *)
Definition RequestFunc (St : Type) : Type := Ctx -> Request -> St -> Ctx * St.

(** [type ServerResponseFunc func(context.Context, http.ResponseWriter) context.Context] *)
Definition ServerResponseFunc (St : Type) : Type := Ctx -> St -> writing (Ctx * St).

(** [type ErrorEncoder func(ctx context.Context, err error, w http.ResponseWriter)] *)
Definition ErrorEncoder (St : Type) : Type := Ctx -> error -> St -> writing St.

(** [type ServerFinalizerFunc func(ctx context.Context, code int, r *http.Request)] *)
Definition ServerFinalizerFunc (St : Type) : Type := Ctx -> Z -> Request -> St -> St.

(** [type DecodeRequestFunc[I any] func(context.Context, *http.Request) (req I, err error)] *)
Definition DecodeRequestFunc (St Req : Type) : Type :=
  Ctx -> Request -> St -> (Req + error) * St.

(** [type EncodeReponseFunc[O any] func(context.Context, http.ResponseWriter, O) error] *)
Definition EncodeReponseFunc (St Res : Type) : Type :=
  Ctx -> Res -> St -> writing (option error * St).

(** [type HandlerFunc[I, O any] func(context.Context, I) (resp O, err error)] *)
Definition HandlerFunc (St Req Res : Type) : Type :=
  Ctx -> Req -> St -> (Res + error) * St.

(** [func NopRequestDecoder(ctx context.Context, r *http.Request) (any, error)] *)
Definition NopRequestDecoder {St} : DecodeRequestFunc St (option any) :=
  fun _ _ st => (inl None, st).

(** Modelled from the spec: the interface [ErrorHandler] is declared outside
    the files at hand. It is the error router, a single extension point
    invoked with [(ctx, err)]; it is strictly observational and returns
    nothing, so all it can do is change the state of its own effects. *)
Record ErrorHandler (St : Type) := {
  Handle : Ctx -> error -> St -> St;
}.
Arguments Handle {St} _ _ _ _.

(** Modelled from the spec: the adapter [ErrorHandlerFunc] is declared
    outside the files at hand; [NewServer] converts a function to it, and
    [Handle] on the result calls that function. *)
Definition ErrorHandlerFunc {St} (f : Ctx -> error -> St -> St) : ErrorHandler St :=
  {| Handle := f |}.

(** Modelled from the spec: the function [LogErrorHandler], the default
    error router, is declared outside the files at hand. The default
    behaviour is a no-op: errors are silently absorbed. *)
Definition LogErrorHandler {St} (_ : Ctx) (_ : error) (st : St) : St := st.

(** [for _, x := range l { body(x) }] over calls on the writer. *)
Fixpoint for_range {A} (l : list A) (body : A -> writing unit) : writing unit :=
  match l with
  | [] => Return tt
  | x :: l => body x;; for_range l body
  end.

Section Encoders.
Variable canon : string -> string.

(** The two nested loops that copy the headers a value provides. *)
Definition apply_Headers (hs : header_entries) : writing unit :=
  for_range hs (fun kv =>
    for_range kv.2 (fun v => update_header (Header_Add canon kv.1 v))).

(** The content type and body [DefaultErrorEncoder] settles on. *)
Definition error_rendering (err : error) : string * string :=
  match error_Marshaler err with
  | Some (jsonBody, None) => ("application/json; charset=utf-8", jsonBody)
  | _ => ("text/plain; charset=utf-8", Error err)
  end.

Definition error_code (err : error) : Z :=
  match error_StatusCoder err with
  | Some c => c
  | None => StatusInternalServerError
  end.

Definition DefaultErrorEncoder {St} : ErrorEncoder St := fun _ err st =>
  let '(contentType, body) := error_rendering err in
  update_header (Header_Set canon "Content-Type" contentType);;
  match error_Headerer err with
  | Some hs => apply_Headers hs
  | None => Return tt
  end;;
  let code := error_code err in
  call_WriteHeader code;;
  call_Write body;;
  Return st.

Definition response_code `{Response Res} (response : Res) : Z :=
  match as_StatusCoder (to_any response) with
  | Some c => c
  | None => StatusOK
  end.

Definition EncodeJSONResponse {St} `{Response Res} : EncodeReponseFunc St Res :=
  fun _ response st =>
  let r := to_any response in
  update_header (Header_Set canon "Content-Type" "application/json; charset=utf-8");;
  match as_Headerer r with
  | Some hs => apply_Headers hs
  | None => Return tt
  end;;
  let code := response_code response in
  call_WriteHeader code;;
  if decide (code = StatusNoContent) then Return (None, st)
  else err ← Encoder_Encode response; Return (err, st).
End Encoders.

(** ** Server *)

Record Server (St Req Res : Type) := {
  h : HandlerFunc St Req Res;
  dec : DecodeRequestFunc St Req;
  enc : EncodeReponseFunc St Res;
  before : list (RequestFunc St);
  after : list (ServerResponseFunc St);
  errorEncoder : ErrorEncoder St;
  finalizer : list (ServerFinalizerFunc St);
  errorHandler : ErrorHandler St;
}.
Arguments h {St Req Res} _.
Arguments dec {St Req Res} _.
Arguments enc {St Req Res} _.
Arguments before {St Req Res} _.
Arguments after {St Req Res} _.
Arguments errorEncoder {St Req Res} _.
Arguments finalizer {St Req Res} _.
Arguments errorHandler {St Req Res} _.

(** [type ServerOption[I, O any] func(s *Server[I, O])] *)
Definition ServerOption (St Req Res : Type) : Type := Server St Req Res -> Server St Req Res.

Section Options.
Context {St Req Res : Type}.

Definition ServerErrorHandler (eh : ErrorHandler St) : ServerOption St Req Res :=
  fun s =>
  {| h := h s; dec := dec s; enc := enc s; before := before s; after := after s;
     errorEncoder := errorEncoder s; finalizer := finalizer s;
     errorHandler := eh |}.

Definition ServerFinalizer (f : list (ServerFinalizerFunc St)) : ServerOption St Req Res :=
  fun s =>
  {| h := h s; dec := dec s; enc := enc s; before := before s; after := after s;
     errorEncoder := errorEncoder s; finalizer := finalizer s ++ f;
     errorHandler := errorHandler s |}.

Definition ServerBefore (fs : list (RequestFunc St)) : ServerOption St Req Res :=
  fun s =>
  {| h := h s; dec := dec s; enc := enc s; before := before s ++ fs; after := after s;
     errorEncoder := errorEncoder s; finalizer := finalizer s;
     errorHandler := errorHandler s |}.

Definition ServerAfter (fs : list (ServerResponseFunc St)) : ServerOption St Req Res :=
  fun s =>
  {| h := h s; dec := dec s; enc := enc s; before := before s; after := after s ++ fs;
     errorEncoder := errorEncoder s; finalizer := finalizer s;
     errorHandler := errorHandler s |}.


(** [NewServer]: the defaults, then the options in order. *)
Definition NewServer (canon : string -> string)
    (h : HandlerFunc St Req Res) (dec : DecodeRequestFunc St Req)
    (enc : EncodeReponseFunc St Res) (options : list (ServerOption St Req Res)) :
    Server St Req Res :=
  let s := {| h := h; dec := dec; enc := enc; before := []; after := [];
              errorEncoder := DefaultErrorEncoder canon; finalizer := [];
              errorHandler := ErrorHandlerFunc LogErrorHandler |} in
  foldl (fun s option => option s) s options.

(** *** ServeHTTP *)

(** [for _, f := range s.before { ctx = f(ctx, r) }] *)
Definition run_before (fs : list (RequestFunc St)) (r : Request) (ctx : Ctx) (st : St) :
    Ctx * St :=
  foldl (fun cs f => f cs.1 r cs.2) (ctx, st) fs.

(** [for _, f := range s.after { ctx = f(ctx, w) }] *)
Fixpoint run_after (fs : list (ServerResponseFunc St)) (ctx : Ctx) (st : St) :
    writing (Ctx * St) :=
  match fs with
  | [] => Return (ctx, st)
  | f :: fs => '(ctx, st) ← f ctx st; run_after fs ctx st
  end.

(** [s.errorHandler.Handle(ctx, err); s.errorEncoder(ctx, err, w)] *)
Definition report (s : Server St Req Res) (ctx : Ctx) (err : error) (st : St) : writing St :=
  let st := Handle (errorHandler s) ctx err st in
  errorEncoder s ctx err st.

(** The part of [ServeHTTP] after the finalizer block. It returns the
    value the variable [ctx] holds when the function returns: the deferred
    closure reads that variable. *)
Definition serve (s : Server St Req Res) (r : Request) (ctx : Ctx) (st : St) :
    writing (Ctx * St) :=
  let '(ctx, st) := run_before (before s) r ctx st in
  match dec s ctx r st with
  | (inr err, st) => st ← report s ctx err st; Return (ctx, st)
  | (inl req, st) =>
    match h s ctx req st with
    | (inr err, st) => st ← report s ctx err st; Return (ctx, st)
    | (inl resp, st) =>
      '(ctx, st) ← run_after (after s) ctx st;
      '(err, st) ← enc s ctx resp st;
      match err with
      | Some err => st ← report s ctx err st; Return (ctx, st)
      | None => Return (ctx, st)
      end
    end
  end.

(** [for _, f := range s.finalizer { f(ctx, iw.code, r) }] *)
Definition run_finalizers (fs : list (ServerFinalizerFunc St)) (ctx : Ctx) (code : Z)
    (r : Request) (st : St) : St :=
  foldl (fun st f => f ctx code r st) st fs.

(** The deferred closure. *)
Definition finalize `{ResponseWriter W} (s : Server St Req Res) (r : Request)
    (ctx : Ctx) (iw : interceptingWriter W) (st : St) : St :=
  let ctx := WithValue ctx ContextKeyResponseHeaders (VHeader (Header iw)) in
  let ctx := WithValue ctx ContextKeyResponseSize (VInt64 (written iw)) in
  run_finalizers (finalizer s) ctx (code iw) r st.

Definition ServeHTTP `{ResponseWriter W} (s : Server St Req Res) (w : W) (r : Request)
    (st : St) : St * W :=
  let ctx := Context r in
  if decide (0 < length (finalizer s))%nat then
    let iw := intercept w in
    let '(ctx, st, iw) := run (serve s r ctx st) iw in
    (finalize s r ctx iw st, embedded iw)
  else
    let '(_, st, w) := run (serve s r ctx st) w in
    (st, w).
End Options.

(** ** Observing a call *)

(** To speak about which callbacks a call invokes, and in which order, every
    callback of a server is wrapped so that it appends an [event] to a log
    when it returns. The log is part of the state the wrapped callbacks
    thread; the wrapped callback itself runs as before. *)
Inductive event :=
| EvBefore (i : nat)
| EvDecode (failure : option error)
| EvHandle (failure : option error)
| EvAfter (i : nat)
| EvEncode (failure : option error)
| EvErrorHandler (err : error)
| EvErrorEncoder (err : error)
| EvFinalizer (i : nat) (ctx : Ctx) (code : Z).

Definition failure_of {A} (x : A + error) : option error :=
  match x with
  | inl _ => None
  | inr e => Some e
  end.

(** [f i x] for the [i]-th element [x], counting from [k]. *)
Fixpoint indexed {A B} (f : nat -> A -> B) (k : nat) (l : list A) : list B :=
  match l with
  | [] => []
  | x :: l => f k x :: indexed f (S k) l
  end.

Section Observed.
Context {St Req Res : Type}.

Definition logged : Type := St * list event.

Definition log (e : event) (st : St) (tr : list event) : logged := (st, tr ++ [e]).

Definition observe_before (i : nat) (f : RequestFunc St) : RequestFunc logged :=
  fun ctx r s =>
  let '(ctx, st) := f ctx r s.1 in (ctx, log (EvBefore i) st s.2).

Definition observe_after (i : nat) (f : ServerResponseFunc St) : ServerResponseFunc logged :=
  fun ctx s =>
  '(ctx, st) ← f ctx s.1; Return (ctx, log (EvAfter i) st s.2).

Definition observe_dec (f : DecodeRequestFunc St Req) : DecodeRequestFunc logged Req :=
  fun ctx r s =>
  let '(req, st) := f ctx r s.1 in (req, log (EvDecode (failure_of req)) st s.2).

Definition observe_h (f : HandlerFunc St Req Res) : HandlerFunc logged Req Res :=
  fun ctx req s =>
  let '(resp, st) := f ctx req s.1 in (resp, log (EvHandle (failure_of resp)) st s.2).

Definition observe_enc (f : EncodeReponseFunc St Res) : EncodeReponseFunc logged Res :=
  fun ctx resp s =>
  '(err, st) ← f ctx resp s.1; Return (err, log (EvEncode err) st s.2).

Definition observe_errorEncoder (f : ErrorEncoder St) : ErrorEncoder logged :=
  fun ctx err s =>
  st ← f ctx err s.1; Return (log (EvErrorEncoder err) st s.2).

Definition observe_errorHandler (eh : ErrorHandler St) : ErrorHandler logged :=
  {| Handle := fun ctx err s => log (EvErrorHandler err) (Handle eh ctx err s.1) s.2 |}.

Definition observe_finalizer (i : nat) (f : ServerFinalizerFunc St) :
    ServerFinalizerFunc logged :=
  fun ctx code r s => log (EvFinalizer i ctx code) (f ctx code r s.1) s.2.

Definition observed (s : Server St Req Res) : Server logged Req Res :=
  {| h := observe_h (h s);
     dec := observe_dec (dec s);
     enc := observe_enc (enc s);
     before := indexed observe_before 0 (before s);
     after := indexed observe_after 0 (after s);
     errorEncoder := observe_errorEncoder (errorEncoder s);
     finalizer := indexed observe_finalizer 0 (finalizer s);
     errorHandler := observe_errorHandler (errorHandler s) |}.

(** The events of one call, starting from an empty log. *)
Definition trace `{ResponseWriter W} (s : Server St Req Res) (w : W) (r : Request)
    (st : St) : list event :=
  (ServeHTTP (observed s) w r (st, [])).1.2.
End Observed.

(** How a call ended. *)
Inductive outcome :=
| DecodeFailed (err : error)
| HandleFailed (err : error)
| EncodeFailed (err : error)
| Succeeded.

(** The events of the stages up to the end of the call body, for [nb]
    pre-hooks and [na] post-hooks. *)
Definition stages (nb na : nat) (o : outcome) : list event :=
  map EvBefore (seq 0 nb) ++
  match o with
  | DecodeFailed e => [EvDecode (Some e); EvErrorHandler e; EvErrorEncoder e]
  | HandleFailed e => [EvDecode None; EvHandle (Some e); EvErrorHandler e; EvErrorEncoder e]
  | EncodeFailed e =>
      [EvDecode None; EvHandle None] ++ map EvAfter (seq 0 na) ++
      [EvEncode (Some e); EvErrorHandler e; EvErrorEncoder e]
  | Succeeded =>
      [EvDecode None; EvHandle None] ++ map EvAfter (seq 0 na) ++ [EvEncode None]
  end.

Definition is_EvEncode (e : event) : bool :=
  match e with EvEncode _ => true | _ => false end.

Definition is_EvErrorEncoder (e : event) : bool :=
  match e with EvErrorEncoder _ => true | _ => false end.

Definition is_EvAfter (e : event) : bool :=
  match e with EvAfter _ => true | _ => false end.

Definition is_EvFinalizer (e : event) : bool :=
  match e with EvFinalizer _ _ _ => true | _ => false end.

(** How often a kind of event occurs in a log. *)
Definition count (p : event -> bool) (tr : list event) : nat :=
  length (List.filter p tr).

(** Which stage of a call fails, if any: the stages of [serve], asked for
    their results one after the other on the writer [w]. *)
Definition outcome_of {St Req Res} `{ResponseWriter W} (s : Server St Req Res) (r : Request)
    (ctx : Ctx) (st : St) (w : W) : outcome :=
  let before_ := run_before (before s) r ctx st in
  match dec s before_.1 r before_.2 with
  | (inr err, _) => DecodeFailed err
  | (inl req, st) =>
    match h s before_.1 req st with
    | (inr err, _) => HandleFailed err
    | (inl resp, st) =>
      let after_ := run (run_after (after s) before_.1 st) w in
      match (run (enc s after_.1.1 resp after_.1.2) after_.2).1.1 with
      | Some err => EncodeFailed err
      | None => Succeeded
      end
    end
  end.

(** The events of the finalizers, each called with [ctx] and [code]. *)
Definition finalizer_events (n : nat) (ctx : Ctx) (code : Z) : list event :=
  map (fun i => EvFinalizer i ctx code) (seq 0 n).

(** ** The option constructors as data *)

(** The four ways the package offers to make a [ServerOption], to speak
    about lists of options. *)
Inductive option_of (St : Type) : Type :=
| ByServerBefore (fs : list (RequestFunc St))
| ByServerAfter (fs : list (ServerResponseFunc St))
| ByServerFinalizer (fs : list (ServerFinalizerFunc St))
| ByServerErrorHandler (eh : ErrorHandler St).
Arguments ByServerBefore {St} fs.
Arguments ByServerAfter {St} fs.
Arguments ByServerFinalizer {St} fs.
Arguments ByServerErrorHandler {St} eh.

Definition build_option {St Req Res} (o : option_of St) : ServerOption St Req Res :=
  match o with
  | ByServerBefore fs => ServerBefore fs
  | ByServerAfter fs => ServerAfter fs
  | ByServerFinalizer fs => ServerFinalizer fs
  | ByServerErrorHandler eh => ServerErrorHandler eh
  end.

(** The pre-hooks, post-hooks and finalizers a list of options registers,
    in the order of registration, and the error handler it names last. *)
Definition registered_before {St} (os : list (option_of St)) : list (RequestFunc St) :=
  concat (omap (fun o => match o with ByServerBefore fs => Some fs | _ => None end) os).

Definition registered_after {St} (os : list (option_of St)) : list (ServerResponseFunc St) :=
  concat (omap (fun o => match o with ByServerAfter fs => Some fs | _ => None end) os).

Definition registered_finalizer {St} (os : list (option_of St)) :
    list (ServerFinalizerFunc St) :=
  concat (omap (fun o => match o with ByServerFinalizer fs => Some fs | _ => None end) os).

Definition registered_errorHandler {St} (os : list (option_of St)) :
    option (ErrorHandler St) :=
  last (omap (fun o => match o with ByServerErrorHandler eh => Some eh | _ => None end) os).

(** ** The first version of the server *)

(** The server of the package root: no finalizers and no error handler. Its
    function types, hooks loops and encoders read as those of [v2]. *)
Module v1.
Record Server (St Req Res : Type) := {
  h : HandlerFunc St Req Res;
  dec : DecodeRequestFunc St Req;
  enc : EncodeReponseFunc St Res;
  before : list (RequestFunc St);
  after : list (ServerResponseFunc St);
  errorEncoder : ErrorEncoder St;
}.
Arguments h {St Req Res} _.
Arguments dec {St Req Res} _.
Arguments enc {St Req Res} _.
Arguments before {St Req Res} _.
Arguments after {St Req Res} _.
Arguments errorEncoder {St Req Res} _.

Definition ServerOption (St Req Res : Type) : Type := Server St Req Res -> Server St Req Res.

Section Server.
Context {St Req Res : Type}.

Definition ServerBefore (fs : list (RequestFunc St)) : ServerOption St Req Res :=
  fun s =>
  {| h := h s; dec := dec s; enc := enc s; before := before s ++ fs; after := after s;
     errorEncoder := errorEncoder s |}.

Definition NewServer (canon : string -> string)
    (h : HandlerFunc St Req Res) (dec : DecodeRequestFunc St Req)
    (enc : EncodeReponseFunc St Res) (options : list (ServerOption St Req Res)) :
    Server St Req Res :=
  let s := {| h := h; dec := dec; enc := enc; before := []; after := [];
              errorEncoder := DefaultErrorEncoder canon |} in
  foldl (fun s option => option s) s options.

(** The calls [ServeHTTP] makes on its writer. *)
Definition serve (s : Server St Req Res) (r : Request) (st : St) : writing St :=
  let ctx := Context r in
  let '(ctx, st) := run_before (before s) r ctx st in
  match dec s ctx r st with
  | (inr err, st) => errorEncoder s ctx err st
  | (inl req, st) =>
    match h s ctx req st with
    | (inr err, st) => errorEncoder s ctx err st
    | (inl resp, st) =>
      '(ctx, st) ← run_after (after s) ctx st;
      '(err, st) ← enc s ctx resp st;
      match err with
      | Some err => errorEncoder s ctx err st
      | None => Return st
      end
    end
  end.

Definition ServeHTTP `{ResponseWriter W} (s : Server St Req Res) (w : W) (r : Request)
    (st : St) : St * W :=
  run (serve s r st) w.
End Server.
End v1.

(** A server of the first version as one of the second: no finalizers, and
    [eh] as error handler. *)
Definition upgrade {St Req Res} (s : v1.Server St Req Res) (eh : ErrorHandler St) :
    Server St Req Res :=
  {| h := v1.h s; dec := v1.dec s; enc := v1.enc s;
     before := v1.before s; after := v1.after s;
     errorEncoder := v1.errorEncoder s; finalizer := [];
     errorHandler := eh |}.

(** ** batch.Chunk *)

Module batch.
(** What [make([]T, 0, n)] depends on besides [n]: the size in bytes of an
    element of type [T] and the most bytes one allocation may take on the
    platform. *)
Class Slices (T : Type) := {
  elem_size : N;
  maxAlloc : N;
}.

Section Chunk.
Context {T St : Type} `{Slices T}.

(** [type Exec[T any] func(items []T) error], with the state of its effects. *)
Definition Exec : Type := list T -> St -> option error * St.

(** The local variables of the goroutine, the errors sent so far and the
    state of [exec]. [counter] is an [int], taken as 64 bits wide. *)
Record vars := {
  bucket : list T;
  counter : Z;
  errs : list (option error);
  exec_state : St;
}.

(** [make([]T, 0, size)]: an empty slice, or [None] for the panic of the
    runtime (cap out of range) when [size] is negative or [size] elements
    take more than an allocation may. A machine that runs out of memory
    for an allocation the runtime accepts is not modelled. *)
Definition make_bucket (size : Z) : option (list T) :=
  if decide (0 <= size /\ Z.of_N elem_size * size <= Z.of_N maxAlloc) then Some []
  else None.

(** One iteration of [for item := range items]; [None] when [make] panics. *)
Definition iteration (size : Z) (exec : Exec) (v : vars) (item : T) : option vars :=
  let bucket := bucket v ++ [item] in
  let counter := wrap64 (counter v + 1) in
  if decide (counter = size) then
    let '(err, st) := exec bucket (exec_state v) in
    fresh ← make_bucket size;
    Some {| bucket := fresh; counter := 0; errs := errs v ++ [err]; exec_state := st |}
  else
    Some {| bucket := bucket; counter := counter; errs := errs v;
            exec_state := exec_state v |}.

(** [for item := range items { ... }] *)
Fixpoint range_items (size : Z) (exec : Exec) (items : list T) (v : vars) : option vars :=
  match items with
  | [] => Some v
  | item :: items => v ← iteration size exec v item; range_items size exec items v
  end.

(** The goroutine of [Chunk], run to the end on an input channel that
    delivers [items] and is then closed, with a consumer that receives
    every error: the errors sent on the result channel, in order, and the
    final state of [exec]; [None] when the goroutine panics. *)
Definition Chunk (size : Z) (items : list T) (exec : Exec) (st : St) :
    option (list (option error) * St) :=
  fresh ← make_bucket size;
  v ← range_items size exec items
         {| bucket := fresh; counter := 0; errs := []; exec_state := st |};
  if decide (length (bucket v) ≠ 0%nat) then
    let '(err, st) := exec (bucket v) (exec_state v) in
    Some (errs v ++ [err], st)
  else Some (errs v, exec_state v).

(** [exec], made to note the slice of each invocation. *)
Definition observe_exec (exec : Exec) : list T -> St * list (list T) -> option error * (St * list (list T)) :=
  fun items s =>
  let '(err, st) := exec items s.1 in (err, (st, s.2 ++ [items])).

(** For the proofs: the iteration and the goroutine with every [make]
    taken to succeed, which is how they run once the first one has. *)
Definition iteration_allocated (size : Z) (exec : Exec) (v : vars) (item : T) : vars :=
  let bucket := bucket v ++ [item] in
  let counter := wrap64 (counter v + 1) in
  if decide (counter = size) then
    let '(err, st) := exec bucket (exec_state v) in
    {| bucket := []; counter := 0; errs := errs v ++ [err]; exec_state := st |}
  else
    {| bucket := bucket; counter := counter; errs := errs v; exec_state := exec_state v |}.

Definition Chunk_allocated (size : Z) (items : list T) (exec : Exec) (st : St) :
    list (option error) * St :=
  let v := foldl (iteration_allocated size exec)
             {| bucket := []; counter := 0; errs := []; exec_state := st |} items in
  if decide (length (bucket v) ≠ 0%nat) then
    let '(err, st) := exec (bucket v) (exec_state v) in
    (errs v ++ [err], st)
  else (errs v, exec_state v).
End Chunk.

(** The slices [exec] was invoked with, in order; none when the goroutine
    panics, which it can do only before it reads an item. *)
Definition invocations {T St} `{Slices T} (size : Z) (items : list T) (exec : @Exec T St)
    (st : St) : list (list T) :=
  match Chunk size items (observe_exec exec) (st, []) with
  | Some out => out.2.2
  | None => []
  end.

(** The errors sent on the result channel, in order. *)
Definition errors_sent {T St} `{Slices T} (size : Z) (items : list T) (exec : @Exec T St)
    (st : St) : list (option error) :=
  match Chunk size items exec st with
  | Some out => out.1
  | None => []
  end.

Definition invocations_allocated {T St} (size : Z) (items : list T) (exec : @Exec T St)
    (st : St) : list (list T) :=
  (Chunk_allocated size items (observe_exec exec) (st, [])).2.2.

(** ceiling(n/s) *)
Definition ceil_div (n s : Z) : Z := (n + s - 1) `div` s.

Section Reduce.
Context {In Out St : Type}.

(** [type Reducer[In, Out any] func(accum Out, index int, item In) Out],
    with the state of its effects. *)
Definition Reducer : Type := Out -> Z -> In -> St -> Out * St.

(** [for i, item := range items { initialValue = reducer(initialValue, i, item) }],
    from index [i] on. *)
Fixpoint Reduce_from (i : Z) (items : list In) (reducer : Reducer) (initialValue : Out)
    (st : St) : Out * St :=
  match items with
  | [] => (initialValue, st)
  | item :: items =>
      let '(initialValue, st) := reducer initialValue i item st in
      Reduce_from (i + 1) items reducer initialValue st
  end.

Definition Reduce (items : list In) (reducer : Reducer) (initialValue : Out) (st : St) :
    Out * St :=
  Reduce_from 0 items reducer initialValue st.

(** [reducer], made to note the index and item of each invocation. *)
Definition observe_reducer (reducer : Reducer) :
    Out -> Z -> In -> St * list (Z * In) -> Out * (St * list (Z * In)) :=
  fun accum i item s =>
  let '(accum, st) := reducer accum i item s.1 in (accum, (st, s.2 ++ [(i, item)])).
End Reduce.
End batch.

(** ** Sample values *)

Module sample.
Definition quote : string := String (Ascii.ascii_of_nat 34) EmptyString.

(** The bytes of the JSON object with the one member id, of value 1. *)
Definition id1 : string := "{" +:+ quote +:+ "id" +:+ quote +:+ ":1}".

(** A value without capabilities that serializes to [id1]. *)
Definition payload : any :=
  {| any_Headerer := None; any_StatusCoder := None; any_json := inl id1 |}.

(** A value that declares status 204 and would serialize to [id1]. *)
Definition no_content : any :=
  {| any_Headerer := None; any_StatusCoder := Some 204; any_json := inl id1 |}.

Definition request : Request :=
  {| Context := Background; Method := "POST"; Body := id1 |}.

Definition empty_body : error := errors_New "empty body".

Definition boom : error := errors_New "boom".

(** An error with all three capabilities whose [MarshalJSON] fails. *)
Definition teapot : error :=
  {| Error := "short and stout";
     error_Marshaler := Some ("{", Some "unexpected end");
     error_Headerer := Some [("Retry-After", ["1"; "2"])];
     error_StatusCoder := Some 418 |}.

(** Canonicalization as it acts on keys that are canonical already. *)
Definition canon : string -> string := fun key => key.

Definition transport : ResponseRecorder := NewRecorder ∅.

Definition handler : HandlerFunc unit unit ReponseCode :=
  fun _ _ st => (inl (AddStatusCode payload 201), st).

Definition decoder : DecodeRequestFunc unit unit := fun _ _ st => (inl tt, st).

Definition failing_decoder : DecodeRequestFunc unit unit :=
  fun _ _ st => (inr empty_body, st).

(** An encoder that fails after it has written a status line and bytes. *)
Definition failing_encoder : EncodeReponseFunc unit ReponseCode :=
  fun _ _ st =>
  call_WriteHeader 200;; call_Write "partial";; Return (Some boom, st).

Definition noop_finalizer : ServerFinalizerFunc unit := fun _ _ _ st => st.

(** A server with one finalizer and the JSON encoder. *)
Definition server : Server unit unit ReponseCode :=
  NewServer canon handler decoder (EncodeJSONResponse canon)
    [ServerBefore []; ServerFinalizer [noop_finalizer]].

Definition rejecting_server : Server unit unit ReponseCode :=
  NewServer canon handler failing_decoder (EncodeJSONResponse canon)
    [ServerFinalizer [noop_finalizer]].

Definition half_written_server : Server unit unit ReponseCode :=
  NewServer canon handler decoder failing_encoder [].

(** A value that fails to serialize. *)
Definition unserializable : any :=
  {| any_Headerer := None; any_StatusCoder := None; any_json := inr boom |}.

Definition returning (v : any) : HandlerFunc unit unit any := fun _ _ st => (inl v, st).

Definition broken_server : Server unit unit any :=
  NewServer canon (returning unserializable) decoder (EncodeJSONResponse canon) [].

Definition silent_server : Server unit unit any :=
  NewServer canon (returning no_content) decoder (EncodeJSONResponse canon)
    [ServerFinalizer [noop_finalizer]].

(** An error handler that does nothing. *)
Definition quiet : ErrorHandler unit := {| Handle := fun _ _ st => st |}.

Definition first_server : v1.Server unit unit ReponseCode :=
  v1.NewServer canon handler failing_decoder (EncodeJSONResponse canon) [].

Definition watched_half_written_server : Server unit unit ReponseCode :=
  NewServer canon handler decoder failing_encoder [ServerFinalizer [noop_finalizer]].

(** Slices of [int] on a 64-bit platform whose allocations are limited to
    2^48 bytes, as on linux/amd64. *)
#[global] Instance int_slices : batch.Slices Z :=
  {| batch.elem_size := 8; batch.maxAlloc := 2 ^ 48 |}.
End sample.

(** * Properties *)

(** ** Running calls *)

Lemma run_bind `{ResponseWriter W} {A B} (m : writing A) (f : A -> writing B) (w : W) :
  run (m ≫= f) w = run (f (run m w).1) (run m w).2.
Proof.
  revert w. unfold mbind, writing_mbind.
  induction m as [a | k IH | hd k IH | c k IH | p k IH]; intros w; simpl; auto.
  destruct (Write p w) as [[n e] w']. apply IH.
Qed.

Lemma run_for_range_cons `{ResponseWriter W} {A} (x : A) (l : list A)
    (body : A -> writing unit) (w : W) :
  run (for_range (x :: l) body) w = run (for_range l body) (run (body x) w).2.
Proof. apply (run_bind (body x) (fun _ => for_range l body) w). Qed.

Lemma run_for_range_app `{ResponseWriter W} {A} (l1 l2 : list A) (body : A -> writing unit)
    (w : W) :
  (run (for_range (l1 ++ l2) body) w).2 =
  (run (for_range l2 body) (run (for_range l1 body) w).2).2.
Proof.
  revert w. induction l1 as [| x l1 IH]; intros w; [done |].
  rewrite <- app_comm_cons, !run_for_range_cons. apply IH.
Qed.

(** ** Headers *)

Section HeaderFacts.
Variable canon : string -> string.

Lemma Header_Values_Set key value h k :
  Header_Values canon (Header_Set canon key value h) k =
  if decide (canon key = canon k) then [value] else Header_Values canon h k.
Proof.
  unfold Header_Values, Header_Set. rewrite lookup_insert. by case_decide.
Qed.

Lemma Header_Values_Add key value h k :
  Header_Values canon (Header_Add canon key value h) k =
  if decide (canon key = canon k) then Header_Values canon h k ++ [value]
  else Header_Values canon h k.
Proof.
  unfold Header_Add, Header_Values at 1. rewrite lookup_insert.
  case_decide as E; [| done]. simpl. unfold Header_Values. by rewrite E.
Qed.

Lemma Header_Add_prefix key value h k :
  Header_Values canon h k `prefix_of` Header_Values canon (Header_Add canon key value h) k.
Proof.
  rewrite Header_Values_Add. case_decide; [by apply prefix_app_r | done].
Qed.

Lemma add_values_prefix key values h k :
  Header_Values canon h k `prefix_of` Header_Values canon (add_values canon key values h) k.
Proof.
  revert h. induction values as [| v values IH]; intros h; simpl; [done |].
  etrans; [apply (Header_Add_prefix key v) | apply IH].
Qed.

Lemma add_headers_prefix hs h k :
  Header_Values canon h k `prefix_of` Header_Values canon (add_headers canon hs h) k.
Proof.
  revert h. induction hs as [| [key values] hs IH]; intros h; simpl; [done |].
  etrans; [apply (add_values_prefix key values) | apply IH].
Qed.

Lemma add_values_elem key values h v :
  v ∈ values -> v ∈ Header_Values canon (add_values canon key values h) key.
Proof.
  revert h. induction values as [| x values IH]; intros h Hv; [by inversion Hv |].
  apply elem_of_cons in Hv as [-> | Hv]; simpl; [| by apply IH].
  destruct (add_values_prefix key values (Header_Add canon key x h) key) as [l ->].
  rewrite Header_Values_Add, decide_True by done. set_solver.
Qed.

(** Every value of every entry is among the values of its key afterwards. *)
Lemma add_headers_elem hs h key values v :
  (key, values) ∈ hs -> v ∈ values ->
  v ∈ Header_Values canon (add_headers canon hs h) key.
Proof.
  revert h. induction hs as [| [k vs] hs IH]; intros h Hkv Hv; [by inversion Hkv |].
  apply elem_of_cons in Hkv as [[= <- <-] | Hkv]; simpl; [| by apply IH].
  destruct (add_headers_prefix hs (add_values canon key values h) key) as [l ->].
  apply elem_of_app. left. by apply add_values_elem.
Qed.

(** Adding values never changes what [Get] returns for a key that is set. *)
Lemma Header_Get_add_headers hs key value h :
  Header_Get canon (add_headers canon hs (Header_Set canon key value h)) key = value.
Proof.
  unfold Header_Get.
  destruct (add_headers_prefix hs (Header_Set canon key value h) key) as [l ->].
  by rewrite Header_Values_Set, decide_True.
Qed.

(** On the recording transport the two loops amount to [add_headers]. *)
Lemma run_apply_Headers hs (rec : ResponseRecorder) :
  run (apply_Headers canon hs) rec =
  (tt, {| HeaderMap := add_headers canon hs (HeaderMap rec); Calls := Calls rec;
          answer := answer rec |}).
Proof.
  unfold apply_Headers. revert rec.
  induction hs as [| [k vs] hs IH]; intros rec; [by destruct rec |].
  rewrite run_for_range_cons. cbn [fst snd].
  assert (forall rec : ResponseRecorder,
    run (for_range vs (fun v => update_header (Header_Add canon k v))) rec =
    (tt, {| HeaderMap := add_values canon k vs (HeaderMap rec); Calls := Calls rec;
            answer := answer rec |})) as Hin.
  { clear. induction vs as [| v vs IH]; intros rec; [by destruct rec |].
    rewrite run_for_range_cons. cbn. by rewrite IH. }
  rewrite Hin. cbn [snd]. by rewrite IH.
Qed.
End HeaderFacts.

(** ** DefaultErrorEncoder *)

(** What the encoder leaves on the recording transport. *)
Lemma DefaultErrorEncoder_run {St} canon ctx err (st : St) (rec : ResponseRecorder) :
  run (DefaultErrorEncoder canon ctx err st) rec =
  let h' := add_headers canon (default [] (error_Headerer err))
              (Header_Set canon "Content-Type" (error_rendering err).1 (HeaderMap rec)) in
  let cs := Calls rec ++ [CallWriteHeader (error_code err)] in
  (st, {| HeaderMap := h';
          Calls := cs ++ [CallWrite (error_rendering err).2
                            (answer rec cs (error_rendering err).2).1
                            (answer rec cs (error_rendering err).2).2];
          answer := answer rec |}).
Proof.
  unfold DefaultErrorEncoder. destruct (error_rendering err) as [contentType body].
  rewrite run_bind. cbn [run update_header fst snd Header Header_store
    ResponseRecorder_ResponseWriter HeaderMap Calls answer].
  rewrite run_bind.
  destruct (error_Headerer err) as [hs |]; [rewrite run_apply_Headers |];
    cbn; by destruct (answer rec _ body).
Qed.

(** C4. For every error value, [DefaultErrorEncoder] leaves the state of its
    caller alone and resolves the response like this: the body is the
    message of the error and the content type text/plain, unless the error
    has a [MarshalJSON] that succeeds, in which case the body is its result
    and the content type application/json; the content type is what [Get]
    reads afterwards; every value of every header the error provides is among
    the values of its key; the status is the one the error provides, else 500;
    and the transport receives exactly one status write followed by exactly
    one body write. *)
Theorem DefaultErrorEncoder_resolution {St} canon ctx err (st : St) (rec : ResponseRecorder) :
  let out := run (DefaultErrorEncoder canon ctx err st) rec in
  let json := match error_Marshaler err with
              | Some (jsonBody, None) => Some jsonBody
              | _ => None
              end in
  let body := default (Error err) json in
  let contentType := match json with
                     | Some _ => "application/json; charset=utf-8"
                     | None => "text/plain; charset=utf-8"
                     end in
  let provided := default [] (error_Headerer err) in
  let code := default 500 (error_StatusCoder err) in
  out.1 = st /\
  Header_Get canon (HeaderMap out.2) "Content-Type" = contentType /\
  Forall (fun kv => Forall (fun v => v ∈ Header_Values canon (HeaderMap out.2) kv.1) kv.2)
    provided /\
  exists n e, Calls out.2 = Calls rec ++ [CallWriteHeader code; CallWrite body n e].
Proof.
  intros out json body contentType provided code. subst out.
  rewrite DefaultErrorEncoder_run. cbn [fst snd HeaderMap Calls].
  assert ((error_rendering err) = (contentType, body)) as ->.
  { subst contentType body json. unfold error_rendering.
    by destruct (error_Marshaler err) as [[b [f |]] |]. }
  assert (error_code err = code) as ->.
  { subst code. unfold error_code. by destruct (error_StatusCoder err). }
  cbn [fst snd]. split_and!.
  - done.
  - apply Header_Get_add_headers.
  - apply Forall_forall. intros [k vs] Hkv. apply Forall_forall. intros v Hv.
    by eapply add_headers_elem.
  - eexists _, _. by rewrite <- app_assoc.
Qed.

(** C9. For every error value that has a [MarshalJSON] which fails, whatever
    bytes it returns along with the failure, [DefaultErrorEncoder] renders
    plain text: the content type is text/plain and the body is the message
    of the error, while the headers and the status code the error provides
    are applied as usual. *)
Theorem DefaultErrorEncoder_marshal_failure {St} canon ctx (st : St) (rec : ResponseRecorder)
    (msg jsonBody failure : string) (headerer : option header_entries)
    (statusCoder : option Z) :
  let err := {| Error := msg; error_Marshaler := Some (jsonBody, Some failure);
                error_Headerer := headerer; error_StatusCoder := statusCoder |} in
  let out := run (DefaultErrorEncoder canon ctx err st) rec in
  Header_Get canon (HeaderMap out.2) "Content-Type" = "text/plain; charset=utf-8" /\
  Forall (fun kv => Forall (fun v => v ∈ Header_Values canon (HeaderMap out.2) kv.1) kv.2)
    (default [] headerer) /\
  exists n e,
    Calls out.2 =
    Calls rec ++ [CallWriteHeader (default 500 statusCoder); CallWrite msg n e].
Proof.
  intros err out. subst out. rewrite DefaultErrorEncoder_run.
  cbn [fst snd HeaderMap Calls]. split_and!.
  - apply Header_Get_add_headers.
  - apply Forall_forall. intros [k vs] Hkv. apply Forall_forall. intros v Hv.
    by eapply add_headers_elem.
  - unfold error_code. subst err. simpl.
    destruct statusCoder; eexists _, _; by rewrite <- app_assoc.
Qed.

(** ** EncodeJSONResponse *)

(** What the encoder returns and leaves on the recording transport. *)
Lemma EncodeJSONResponse_run {St} `{Response Res} canon ctx (response : Res) (st : St)
    (rec : ResponseRecorder) :
  run (EncodeJSONResponse canon ctx response st) rec =
  let h' := add_headers canon (default [] (as_Headerer response))
              (Header_Set canon "Content-Type" "application/json; charset=utf-8"
                 (HeaderMap rec)) in
  let code := response_code response in
  let cs := Calls rec ++ [CallWriteHeader code] in
  let sent cs' := {| HeaderMap := h'; Calls := cs'; answer := answer rec |} in
  if decide (code = StatusNoContent) then (None, st, sent cs)
  else match json_Marshal response with
       | inr e => (Some e, st, sent cs)
       | inl b =>
           let a := answer rec cs (b +:+ newline) in
           (a.2, st, sent (cs ++ [CallWrite (b +:+ newline) a.1 a.2]))
       end.
Proof.
  unfold EncodeJSONResponse.
  rewrite run_bind. cbn [run update_header fst snd Header Header_store
    ResponseRecorder_ResponseWriter HeaderMap Calls answer].
  rewrite run_bind. cbn [to_any as_Headerer any_Response any_Headerer].
  destruct (as_Headerer response) as [hs |]; [rewrite run_apply_Headers |];
    cbn [fst snd default]; rewrite run_bind; cbn [run call_WriteHeader fst snd WriteHeader
      ResponseRecorder_ResponseWriter HeaderMap Calls answer add_headers foldl];
    (case_decide; [done |]); rewrite run_bind; unfold Encoder_Encode;
    (destruct (json_Marshal response) as [b | e]; [| done]);
    rewrite run_bind; cbn; by destruct (answer rec _ _).
Qed.

(** C3. [EncodeJSONResponse] sets the content type, adds the headers the
    response provides and writes the resolved status code (the one the
    response provides, else 200). When that code is 204 it stops there: no
    body write reaches the transport and no error is returned, whatever
    [json.Marshal] would have made of the value. For any other code the
    encoding step is carried out on the transport as it then is and its
    result is returned; so for a value that serializes to [b] the transport
    receives one body write, of [b] and the line feed [json.Encoder]
    appends. *)
Theorem EncodeJSONResponse_no_content {St} `{Response Res} canon ctx (response : Res)
    (st : St) (rec : ResponseRecorder) :
  let out := run (EncodeJSONResponse canon ctx response st) rec in
  let code := default 200 (as_StatusCoder response) in
  let headed :=
    {| HeaderMap := add_headers canon (default [] (as_Headerer response))
                      (Header_Set canon "Content-Type" "application/json; charset=utf-8"
                         (HeaderMap rec));
       Calls := Calls rec ++ [CallWriteHeader code];
       answer := answer rec |} in
  Header_Get canon (HeaderMap out.2) "Content-Type" = "application/json; charset=utf-8" /\
  Forall (fun kv => Forall (fun v => v ∈ Header_Values canon (HeaderMap out.2) kv.1) kv.2)
    (default [] (as_Headerer response)) /\
  (code = 204 ->
     out.1 = (None, st) /\ Calls out.2 = Calls rec ++ [CallWriteHeader 204]) /\
  (code <> 204 ->
     out = ((run (Encoder_Encode response) headed).1, st,
            (run (Encoder_Encode response) headed).2)) /\
  (code <> 204 -> forall b, json_Marshal response = inl b ->
     exists n e,
       out.1 = (e, st) /\
       Calls out.2 = Calls rec ++ [CallWriteHeader code; CallWrite (b +:+ newline) n e]).
Proof.
  intros out code headed. subst out headed. rewrite EncodeJSONResponse_run.
  assert (response_code response = code) as ->.
  { subst code. unfold response_code. simpl. by destruct (as_StatusCoder response). }
  cbv zeta. split_and!.
  - case_decide; [| destruct (json_Marshal response)]; apply Header_Get_add_headers.
  - apply Forall_forall. intros [k vs] Hkv. apply Forall_forall. intros v Hv.
    case_decide; [| destruct (json_Marshal response)]; by eapply add_headers_elem.
  - intros E. rewrite decide_True by done. by rewrite E.
  - intros E. rewrite decide_False by done. unfold Encoder_Encode.
    destruct (json_Marshal response) as [b | e]; [| done].
    rewrite run_bind. cbn. by destruct (answer rec _ _).
  - intros E b Hb. rewrite decide_False by done. rewrite Hb.
    eexists _, _. split; [done |]. by rewrite <- app_assoc.
Qed.

(** ** ReponseCode *)

(** C6. For every value [v] and integer [c], [AddStatusCode(v, c)] answers
    the [StatusCoder] assertion with [c], and its [MarshalJSON] returns what
    [json.Marshal] returns for [v], success or failure. So when [v]
    serializes to [b], encoding [AddStatusCode(v, 201)] with
    [EncodeJSONResponse] writes status 201 and then the body [b], followed
    by the line feed [json.Encoder] ends every value with. *)
Theorem AddStatusCode_capabilities {St} `{Response V} canon ctx (v : V) (c : Z) (st : St)
    (rec : ResponseRecorder) :
  as_StatusCoder (AddStatusCode (to_any v) c) = Some c /\
  StatusCode (AddStatusCode (to_any v) c) = c /\
  MarshalJSON (AddStatusCode (to_any v) c) = json_Marshal v /\
  (forall b, json_Marshal v = inl b ->
     let out := run (EncodeJSONResponse canon ctx (AddStatusCode (to_any v) 201) st) rec in
     exists n e,
       out.1 = (e, st) /\
       Calls out.2 = Calls rec ++ [CallWriteHeader 201; CallWrite (b +:+ newline) n e]).
Proof.
  split_and!; [done.. |]. intros b Hb out. subst out.
  rewrite EncodeJSONResponse_run. cbv zeta.
  change (response_code (AddStatusCode (to_any v) 201)) with 201.
  rewrite decide_False by done.
  change (json_Marshal (AddStatusCode (to_any v) 201)) with
    (match json_Marshal v with
     | inl b => inl b
     | inr e => inr (MarshalerError "*kit.ReponseCode" e)
     end : string + error).
  rewrite Hb. eexists _, _. split; [done |]. by rewrite <- app_assoc.
Qed.

(** ** interceptingWriter *)

Lemma wrap64_small z : in_int64 z -> wrap64 z = z.
Proof. unfold in_int64, wrap64. intros Hz. rewrite Z.mod_small; lia. Qed.

Lemma wrap64_range z : in_int64 (wrap64 z).
Proof.
  unfold in_int64, wrap64.
  pose proof (Z.mod_pos_bound (z + 2 ^ 63) (2 ^ 64)). lia.
Qed.

(** Calls made through the decorator give the results they give on the
    embedded writer and leave it in the same state. *)
Lemma run_intercepted `{ResponseWriter W} {A} (m : writing A) (iw : interceptingWriter W) :
  (run m iw).1 = (run m (embedded iw)).1 /\
  embedded (run m iw).2 = (run m (embedded iw)).2.
Proof.
  revert iw. induction m as [a | k IH | hd k IH | c k IH | p k IH]; intros iw; simpl.
  - done.
  - apply IH.
  - apply (IH {| embedded := Header_store hd (embedded iw); code := code iw;
                 written := written iw |}).
  - apply (IH {| embedded := WriteHeader c (embedded iw); code := c;
                 written := written iw |}).
  - destruct (Write p (embedded iw)) as [[n e] w'] eqn:E.
    apply (IH n e {| embedded := w'; code := code iw;
                     written := int64_add (written iw) n |}).
Qed.

(** C5. The writer [ServeHTTP] constructs records code 200 and byte count 0
    around the given writer. [WriteHeader(c)] records [c] and passes [c] to
    the embedded writer. [Write(p)] passes [p] to the embedded writer,
    returns its count and error as they are, and adds the count to the byte
    count, in [int64] arithmetic: the exact sum whenever that fits.
    [Header] is the embedded writer's. Hence any sequence of calls made
    through the decorator returns what it returns on the embedded writer and
    leaves that writer in the same state. *)
Theorem interceptingWriter_pass_through `{ResponseWriter W} (w : W)
    (iw : interceptingWriter W) (c : Z) (p : string) :
  intercept w = {| embedded := w; code := 200; written := 0 |} /\
  WriteHeader c iw =
    {| embedded := WriteHeader c (embedded iw); code := c; written := written iw |} /\
  (Write p iw).1 = (Write p (embedded iw)).1 /\
  embedded (Write p iw).2 = (Write p (embedded iw)).2 /\
  code (Write p iw).2 = code iw /\
  written (Write p iw).2 = int64_add (written iw) (Write p (embedded iw)).1.1 /\
  (in_int64 (written iw + (Write p (embedded iw)).1.1) ->
     written (Write p iw).2 = written iw + (Write p (embedded iw)).1.1) /\
  Header iw = Header (embedded iw) /\
  (forall A (m : writing A),
     (run m iw).1 = (run m (embedded iw)).1 /\
     embedded (run m iw).2 = (run m (embedded iw)).2).
Proof.
  split; [done |]. split; [done |].
  assert (Write p iw =
          ((Write p (embedded iw)).1,
           {| embedded := (Write p (embedded iw)).2; code := code iw;
              written := int64_add (written iw) (Write p (embedded iw)).1.1 |})) as ->.
  { simpl. by destruct (Write p (embedded iw)) as [[n e] w']. }
  cbn [fst snd embedded code written]. split_and!; try done.
  - intros Hfit. by apply wrap64_small.
  - intros A m. apply run_intercepted.
Qed.

(** What the decorator has recorded after any sequence of calls, in terms
    of what reached the recording transport meanwhile: the code of the last
    status write, and the sum of the accepted byte counts. *)
Lemma last_cons (c d : Z) (l : list Z) : List.last (c :: l) d = List.last l c.
Proof.
  revert c d. induction l as [| x l IH]; intros c d; [done |].
  change (List.last (c :: x :: l) d) with (List.last (x :: l) d).
  by rewrite (IH x d), (IH x c).
Qed.

Lemma wrap64_add_l a b : wrap64 (wrap64 a + b) = wrap64 (a + b).
Proof.
  unfold wrap64. f_equal.
  replace ((a + 2 ^ 63) `mod` 2 ^ 64 - 2 ^ 63 + b + 2 ^ 63)
    with ((a + 2 ^ 63) `mod` 2 ^ 64 + b) by lia.
  rewrite Zplus_mod_idemp_l. f_equal. lia.
Qed.

Lemma intercepted_tally {A} (m : writing A) (iw : interceptingWriter ResponseRecorder) :
  in_int64 (written iw) ->
  exists new,
    Calls (embedded (run m iw).2) = Calls (embedded iw) ++ new /\
    code (run m iw).2 = last_status (code iw) new /\
    written (run m iw).2 = wrap64 (written iw + accepted new).
Proof.
  revert iw. induction m as [a | k IH | hd k IH | c k IH | p k IH]; intros iw Hw;
    cbn [run].
  - exists []. simpl. rewrite app_nil_r, Z.add_0_r, wrap64_small by done. done.
  - by apply IH.
  - exact (IH (Header_store hd iw) Hw).
  - destruct (IH (WriteHeader c iw)) as (new & Hcalls & Hcode & Hwritten); [exact Hw |].
    exists (CallWriteHeader c :: new). rewrite Hcalls, Hcode, Hwritten. split_and!.
    + simpl. by rewrite <- app_assoc.
    + unfold last_status.
      change (statuses_of (CallWriteHeader c :: new)) with (c :: statuses_of new).
      by rewrite last_cons.
    + done.
  - destruct (Write p iw) as [[n e] iw'] eqn:E.
    assert (iw' = {| embedded := {| HeaderMap := HeaderMap (embedded iw);
                                    Calls := Calls (embedded iw) ++ [CallWrite p n e];
                                    answer := answer (embedded iw) |};
                     code := code iw;
                     written := int64_add (written iw) n |}) as ->.
    { simpl in E. destruct (answer (embedded iw) (Calls (embedded iw)) p) as [n' e'].
      by injection E as <- <- <-. }
    match goal with |- context [run (k n e) ?x] =>
      destruct (IH n e x (wrap64_range _)) as (new & Hcalls & Hcode & Hwritten) end.
    exists (CallWrite p n e :: new). rewrite Hcalls, Hcode, Hwritten. split_and!.
    + simpl. by rewrite <- app_assoc.
    + done.
    + change (accepted (CallWrite p n e :: new)) with (n + accepted new).
      cbn [written]. unfold int64_add. rewrite wrap64_add_l. f_equal. lia.
Qed.

(** ** Observed servers *)

Section ObservedFacts.
Context {St Req Res : Type}.
Implicit Types (s : Server St Req Res) (st : St) (tr : list event).

Lemma observe_before_eq i (f : RequestFunc St) ctx r st tr :
  observe_before i f ctx r (st, tr) =
  ((f ctx r st).1, ((f ctx r st).2, tr ++ [EvBefore i])).
Proof. unfold observe_before. simpl. by destruct (f ctx r st). Qed.

Lemma observe_dec_eq (f : DecodeRequestFunc St Req) ctx r st tr :
  observe_dec f ctx r (st, tr) =
  ((f ctx r st).1, ((f ctx r st).2, tr ++ [EvDecode (failure_of (f ctx r st).1)])).
Proof. unfold observe_dec. simpl. by destruct (f ctx r st). Qed.

Lemma observe_h_eq (f : HandlerFunc St Req Res) ctx req st tr :
  observe_h f ctx req (st, tr) =
  ((f ctx req st).1, ((f ctx req st).2, tr ++ [EvHandle (failure_of (f ctx req st).1)])).
Proof. unfold observe_h. simpl. by destruct (f ctx req st). Qed.

Lemma run_observe_after `{ResponseWriter W} i (f : ServerResponseFunc St) ctx st tr (w : W) :
  run (observe_after i f ctx (st, tr)) w =
  ((run (f ctx st) w).1.1, ((run (f ctx st) w).1.2, tr ++ [EvAfter i]),
   (run (f ctx st) w).2).
Proof.
  unfold observe_after. rewrite run_bind. simpl.
  by destruct (run (f ctx st) w) as [[ctx' st'] w'].
Qed.

Lemma run_observe_enc `{ResponseWriter W} (f : EncodeReponseFunc St Res) ctx resp st tr
    (w : W) :
  run (observe_enc f ctx resp (st, tr)) w =
  ((run (f ctx resp st) w).1.1,
   ((run (f ctx resp st) w).1.2, tr ++ [EvEncode (run (f ctx resp st) w).1.1]),
   (run (f ctx resp st) w).2).
Proof.
  unfold observe_enc. rewrite run_bind. simpl.
  by destruct (run (f ctx resp st) w) as [[err st'] w'].
Qed.

Lemma run_before_cons {S'} (f : RequestFunc S') fs r ctx (st : S') :
  run_before (f :: fs) r ctx st = run_before fs r (f ctx r st).1 (f ctx r st).2.
Proof. unfold run_before. simpl. by destruct (f ctx r st). Qed.

Lemma run_before_observed (fs : list (RequestFunc St)) k r ctx st tr :
  run_before (indexed observe_before k fs) r ctx (st, tr) =
  ((run_before fs r ctx st).1,
   ((run_before fs r ctx st).2, tr ++ map EvBefore (seq k (length fs)))).
Proof.
  revert k ctx st tr.
  induction fs as [| f fs IH]; intros k ctx st tr.
  - simpl. by rewrite app_nil_r.
  - cbn [indexed]. rewrite !run_before_cons, observe_before_eq. cbn [fst snd].
    rewrite IH. simpl. by rewrite <- app_assoc.
Qed.

Lemma run_after_cons `{ResponseWriter W} {S'} (f : ServerResponseFunc S') fs ctx (st : S')
    (w : W) :
  run (run_after (f :: fs) ctx st) w =
  run (run_after fs (run (f ctx st) w).1.1 (run (f ctx st) w).1.2) (run (f ctx st) w).2.
Proof.
  cbn [run_after]. rewrite run_bind. by destruct (run (f ctx st) w) as [[ctx' st'] w'].
Qed.

Lemma run_after_observed `{ResponseWriter W} (fs : list (ServerResponseFunc St)) k ctx st tr
    (w : W) :
  run (run_after (indexed observe_after k fs) ctx (st, tr)) w =
  ((run (run_after fs ctx st) w).1.1,
   ((run (run_after fs ctx st) w).1.2, tr ++ map EvAfter (seq k (length fs))),
   (run (run_after fs ctx st) w).2).
Proof.
  revert k ctx st tr w.
  induction fs as [| f fs IH]; intros k ctx st tr w.
  - simpl. by rewrite app_nil_r.
  - cbn [indexed]. rewrite !run_after_cons, run_observe_after. cbn [fst snd].
    rewrite IH. simpl. by rewrite <- app_assoc.
Qed.

Lemma report_observed `{ResponseWriter W} s ctx err st tr (w : W) :
  run (report (observed s) ctx err (st, tr)) w =
  ((run (report s ctx err st) w).1, tr ++ [EvErrorHandler err; EvErrorEncoder err],
   (run (report s ctx err st) w).2).
Proof.
  unfold report. cbn [observed errorHandler errorEncoder observe_errorHandler Handle].
  unfold observe_errorEncoder, log. rewrite run_bind. cbn [fst snd run].
  by rewrite <- app_assoc.
Qed.

Lemma run_finalizers_cons {S'} (f : ServerFinalizerFunc S') fs ctx c r (st : S') :
  run_finalizers (f :: fs) ctx c r st = run_finalizers fs ctx c r (f ctx c r st).
Proof. done. Qed.

Lemma run_finalizers_observed (fs : list (ServerFinalizerFunc St)) k ctx c r st tr :
  run_finalizers (indexed observe_finalizer k fs) ctx c r (st, tr) =
  (run_finalizers fs ctx c r st,
   tr ++ map (fun i => EvFinalizer i ctx c) (seq k (length fs))).
Proof.
  revert k st tr.
  induction fs as [| f fs IH]; intros k st tr.
  - simpl. by rewrite app_nil_r.
  - cbn [indexed]. rewrite !run_finalizers_cons.
    change (observe_finalizer k f ctx c r (st, tr)) with
      (f ctx c r st, tr ++ [EvFinalizer k ctx c]).
    rewrite IH. simpl. by rewrite <- app_assoc.
Qed.

Lemma length_indexed {A B} (f : nat -> A -> B) k (l : list A) :
  length (indexed f k l) = length l.
Proof. revert k. induction l; intros k; simpl; auto. Qed.

(** The observed body behaves as the plain one and logs the stages of
    its outcome. *)
Lemma serve_observed `{ResponseWriter W} s r ctx st tr (w : W) :
  run (serve (observed s) r ctx (st, tr)) w =
  ((run (serve s r ctx st) w).1.1,
   ((run (serve s r ctx st) w).1.2,
    tr ++ stages (length (before s)) (length (after s)) (outcome_of s r ctx st w)),
   (run (serve s r ctx st) w).2).
Proof.
  unfold serve, outcome_of, stages.
  cbn [observed before after dec h enc].
  rewrite run_before_observed.
  destruct (run_before (before s) r ctx st) as [ctx1 st1]. cbn [fst snd].
  rewrite observe_dec_eq.
  destruct (dec s ctx1 r st1) as [[req | e] st2]; cbn [fst snd failure_of].
  2:{ rewrite !run_bind, report_observed. cbn [fst snd run].
      by rewrite <- !app_assoc. }
  rewrite observe_h_eq.
  destruct (h s ctx1 req st2) as [[resp | e] st3]; cbn [fst snd failure_of].
  2:{ rewrite !run_bind, report_observed. cbn [fst snd run].
      by rewrite <- !app_assoc. }
  rewrite !run_bind, run_after_observed.
  destruct (run (run_after (after s) ctx1 st3) w) as [[ctx2 st4] w1]. cbn [fst snd].
  rewrite !run_bind, run_observe_enc.
  destruct (run (enc s ctx2 resp st4) w1) as [[[e |] st5] w2]; cbn [fst snd].
  - rewrite !run_bind, report_observed. cbn [fst snd run].
    by rewrite <- !app_assoc.
  - cbn [run fst snd]. by rewrite <- !app_assoc.
Qed.
End ObservedFacts.

(** ** ServeHTTP *)

Section ServeHTTPFacts.
Context {St Req Res : Type}.
Implicit Types (s : Server St Req Res) (st : St) (r : Request).

(** The stages fail or succeed alike behind the decorator. *)
Lemma outcome_of_intercepted `{ResponseWriter W} s r ctx st (iw : interceptingWriter W) :
  outcome_of s r ctx st iw = outcome_of s r ctx st (embedded iw).
Proof.
  unfold outcome_of.
  destruct (dec s _ r _) as [[req | e] st2]; [| done].
  destruct (h s _ req st2) as [[resp | e] st3]; [| done].
  destruct (run_intercepted (run_after (after s) (run_before (before s) r ctx st).1 st3) iw)
    as [-> Ha].
  destruct (run_intercepted
    (enc s (run (run_after (after s) (run_before (before s) r ctx st).1 st3)
              (embedded iw)).1.1 resp
           (run (run_after (after s) (run_before (before s) r ctx st).1 st3)
              (embedded iw)).1.2)
    (run (run_after (after s) (run_before (before s) r ctx st).1 st3) iw).2) as [-> _].
  by rewrite Ha.
Qed.

(** The transport ends up as the call body leaves it, finalizers or not. *)
Lemma ServeHTTP_writer `{ResponseWriter W} s (w : W) r st :
  (ServeHTTP s w r st).2 = (run (serve s r (Context r) st) w).2.
Proof.
  unfold ServeHTTP. case_decide.
  - destruct (run_intercepted (serve s r (Context r) st) (intercept w)) as [_ E].
    destruct (run (serve s r (Context r) st) (intercept w)) as [[ctx st'] iw].
    apply E.
  - by destruct (run (serve s r (Context r) st) w) as [[ctx st'] w'].
Qed.

(** The events of a call: the stages of its outcome, then the finalizers,
    all with the same context and code. *)
Lemma trace_eq `{ResponseWriter W} s (w : W) r st :
  trace s w r st =
  stages (length (before s)) (length (after s)) (outcome_of s r (Context r) st w) ++
  if decide (0 < length (finalizer s))%nat then
    let body := run (serve s r (Context r) st) (intercept w) in
    finalizer_events (length (finalizer s))
      (WithValue (WithValue body.1.1 ContextKeyResponseHeaders (VHeader (Header body.2)))
         ContextKeyResponseSize (VInt64 (written body.2)))
      (code body.2)
  else [].
Proof.
  unfold trace, ServeHTTP. cbn [observed finalizer]. rewrite length_indexed.
  case_decide.
  - rewrite serve_observed, outcome_of_intercepted. cbn [intercept embedded].
    unfold finalize. cbn [observed finalizer]. rewrite run_finalizers_observed.
    done.
  - rewrite serve_observed. cbn [fst snd]. by rewrite app_nil_r.
Qed.

(** Observing a call changes neither the state it leaves nor the transport. *)
Lemma ServeHTTP_observed `{ResponseWriter W} s (w : W) r st :
  ServeHTTP (observed s) w r (st, []) =
  (((ServeHTTP s w r st).1, trace s w r st), (ServeHTTP s w r st).2).
Proof.
  unfold trace. unfold ServeHTTP. cbn [observed finalizer]. rewrite length_indexed.
  case_decide.
  - rewrite serve_observed.
    destruct (run (serve s r (Context r) st) (intercept w)) as [[ctx st'] iw].
    cbn [fst snd]. unfold finalize. cbn [observed finalizer].
    by rewrite run_finalizers_observed.
  - rewrite serve_observed.
    by destruct (run (serve s r (Context r) st) w) as [[ctx st'] w'].
Qed.
End ServeHTTPFacts.

(** ** Counting events *)

Lemma count_app p tr1 tr2 : count p (tr1 ++ tr2) = (count p tr1 + count p tr2)%nat.
Proof. unfold count. by rewrite List.filter_app, length_app. Qed.

Lemma count_map_0 {A} p (f : A -> event) (l : list A) :
  (forall x, p (f x) = false) -> count p (map f l) = 0%nat.
Proof.
  intros Hp. unfold count. induction l as [| x l IH]; simpl; [done |].
  by rewrite Hp.
Qed.

Lemma count_finalizer_events p n ctx c :
  (forall i, p (EvFinalizer i ctx c) = false) -> count p (finalizer_events n ctx c) = 0%nat.
Proof. intros Hp. by apply count_map_0. Qed.

Lemma Forall_finalizer_events n ctx c :
  Forall (fun e => is_EvFinalizer e = true) (finalizer_events n ctx c).
Proof. unfold finalizer_events. apply Forall_map. by apply Forall_true. Qed.

Lemma count_finalizers_0 p fin :
  (forall e, is_EvFinalizer e = true -> p e = false) ->
  Forall (fun e => is_EvFinalizer e = true) fin -> count p fin = 0%nat.
Proof.
  intros Hp Hfin. unfold count. induction Hfin as [| e fin He _ IH]; simpl; [done |].
  by rewrite (Hp e He).
Qed.

Ltac count_events :=
  repeat rewrite count_app;
  repeat (rewrite (count_map_0 _ EvBefore) by done);
  repeat (rewrite (count_map_0 _ EvAfter) by done);
  repeat match goal with
  | Hfin : Forall _ ?fin |- context [count ?p ?fin] =>
      rewrite (count_finalizers_0 p fin) by (try (by intros []); exact Hfin)
  end;
  try reflexivity.

(** C1. The events of every call to [ServeHTTP] are the pre-hooks in order,
    the decoder, the handler, the post-hooks in order and the encoder, cut
    short after the first stage that fails, followed only by finalizers.
    When the decoder or the handler fails, no post-hook and no encoder is
    invoked and the error encoder is invoked exactly once, right after the
    error handler; when the encoder fails it has been invoked once and the
    error encoder is invoked once after it; when nothing fails the encoder
    is invoked exactly once and the error encoder never. *)
Theorem ServeHTTP_stage_order {St Req Res} `{ResponseWriter W} (s : Server St Req Res)
    (w : W) (r : Request) (st : St) :
  let tr := trace s w r st in
  let pre := map EvBefore (seq 0 (length (before s))) in
  let post := map EvAfter (seq 0 (length (after s))) in
  exists fin,
    Forall (fun e => is_EvFinalizer e = true) fin /\
    match outcome_of s r (Context r) st w with
    | DecodeFailed e =>
        tr = pre ++ [EvDecode (Some e); EvErrorHandler e; EvErrorEncoder e] ++ fin /\
        count is_EvAfter tr = 0%nat /\ count is_EvEncode tr = 0%nat /\
        count is_EvErrorEncoder tr = 1%nat
    | HandleFailed e =>
        tr = pre ++ [EvDecode None; EvHandle (Some e); EvErrorHandler e; EvErrorEncoder e]
                 ++ fin /\
        count is_EvAfter tr = 0%nat /\ count is_EvEncode tr = 0%nat /\
        count is_EvErrorEncoder tr = 1%nat
    | EncodeFailed e =>
        tr = pre ++ [EvDecode None; EvHandle None] ++ post ++
             [EvEncode (Some e); EvErrorHandler e; EvErrorEncoder e] ++ fin /\
        count is_EvEncode tr = 1%nat /\ count is_EvErrorEncoder tr = 1%nat
    | Succeeded =>
        tr = pre ++ [EvDecode None; EvHandle None] ++ post ++ [EvEncode None] ++ fin /\
        count is_EvEncode tr = 1%nat /\ count is_EvErrorEncoder tr = 0%nat
    end.
Proof.
  intros tr pre post. subst tr. rewrite trace_eq.
  match goal with |- context [stages _ _ _ ++ ?f] => set (fin := f) end.
  assert (Forall (fun e => is_EvFinalizer e = true) fin) as Hfin.
  { subst fin. case_decide; [apply Forall_finalizer_events | done]. }
  clearbody fin. exists fin. split; [done |].
  unfold stages. fold pre post.
  destruct (outcome_of s r (Context r) st w) as [e | e | e |];
    rewrite <- ?app_assoc; (split; [done |]); subst pre post;
    repeat split; count_events.
Qed.

(** C2. In every call to [ServeHTTP] with at least one finalizer, whatever
    the outcome of the stages, the events after those of the call body are
    the finalizers, each once and in registration order, and no finalizer
    runs earlier. Each receives the code the intercepting writer holds when
    the body has ended and one and the same context: the context the body
    ended with, extended so that [ContextKeyResponseHeaders] yields the
    headers of the intercepting writer and [ContextKeyResponseSize] its byte
    count, and unchanged at every other key. The state the call leaves is
    the state the body left, passed through the finalizers in order. *)
Theorem ServeHTTP_finalizers_run_once {St Req Res} `{ResponseWriter W}
    (s : Server St Req Res) (w : W) (r : Request) (st : St) :
  (0 < length (finalizer s))%nat ->
  let body := run (serve s r (Context r) st) (intercept w) in
  let iw := body.2 in
  let ctx := WithValue
               (WithValue body.1.1 ContextKeyResponseHeaders (VHeader (Header iw)))
               ContextKeyResponseSize (VInt64 (written iw)) in
  let staged := stages (length (before s)) (length (after s))
                  (outcome_of s r (Context r) st w) in
  trace s w r st =
    staged ++ map (fun i => EvFinalizer i ctx (code iw)) (seq 0 (length (finalizer s))) /\
  count is_EvFinalizer staged = 0%nat /\
  Value ctx ContextKeyResponseHeaders = Some (VHeader (Header iw)) /\
  Value ctx ContextKeyResponseSize = Some (VInt64 (written iw)) /\
  (forall name, Value ctx (OtherKey name) = Value body.1.1 (OtherKey name)) /\
  (ServeHTTP s w r st).1 = run_finalizers (finalizer s) ctx (code iw) r body.1.2 /\
  (ServeHTTP s w r st).2 = embedded iw.
Proof.
  intros Hfin body iw ctx staged. split_and!.
  - rewrite trace_eq. by rewrite decide_True.
  - subst staged. unfold stages.
    destruct (outcome_of s r (Context r) st w); count_events.
  - done.
  - done.
  - done.
  - unfold ServeHTTP. rewrite decide_True by done. subst ctx iw body.
    by destruct (run (serve s r (Context r) st) (intercept w)) as [[ctx' st'] iw'].
  - unfold ServeHTTP. rewrite decide_True by done. subst ctx iw body.
    by destruct (run (serve s r (Context r) st) (intercept w)) as [[ctx' st'] iw'].
Qed.

(** ** NewServer *)

Section NewServerFacts.
Context {St Req Res : Type}.

End NewServerFacts.


(** ** A failing encoder *)

(** The recording transport only ever grows its list of calls. *)
Lemma run_Calls_prefix {A} (m : writing A) (rec : ResponseRecorder) :
  Calls rec `prefix_of` Calls (run m rec).2.
Proof.
  revert rec. induction m as [a | k IH | hd k IH | c k IH | p k IH]; intros rec; simpl.
  - done.
  - apply IH.
  - exact (IH _).
  - etrans; [| apply IH]. by apply prefix_app_r.
  - destruct (answer rec (Calls rec) p) as [n e].
    etrans; [| apply IH]. by apply prefix_app_r.
Qed.

(** C8. Take a call in which decoder and handler succeed and the encoder,
    run after the post-hooks, returns the failure [e], having left the
    transport in the state [en.2]. Then the transport ends up as the error
    encoder leaves it when started in that very state, with the state the
    error handler returned: what the transport had received when the
    encoder returned, status line and body bytes included, is still there,
    a prefix of what it has received at the end. The log shows the encoder
    failing, then the error handler and the error encoder with [e], then
    only finalizers. *)
Theorem ServeHTTP_encode_failure {St Req Res} (s : Server St Req Res)
    (rec : ResponseRecorder) (r : Request) (st : St) req st2 resp st3 e :
  let b := run_before (before s) r (Context r) st in
  dec s b.1 r b.2 = (inl req, st2) ->
  h s b.1 req st2 = (inl resp, st3) ->
  let a := run (run_after (after s) b.1 st3) rec in
  let en := run (enc s a.1.1 resp a.1.2) a.2 in
  en.1.1 = Some e ->
  let out := ServeHTTP s rec r st in
  out.2 = (run (errorEncoder s a.1.1 e (Handle (errorHandler s) a.1.1 e en.1.2)) en.2).2 /\
  Calls en.2 `prefix_of` Calls out.2 /\
  exists fin,
    Forall (fun e => is_EvFinalizer e = true) fin /\
    trace s rec r st =
      map EvBefore (seq 0 (length (before s))) ++ [EvDecode None; EvHandle None] ++
      map EvAfter (seq 0 (length (after s))) ++
      [EvEncode (Some e); EvErrorHandler e; EvErrorEncoder e] ++ fin.
Proof.
  intros b Hdec Hh a en Hen out.
  assert (out.2 =
    (run (errorEncoder s a.1.1 e (Handle (errorHandler s) a.1.1 e en.1.2)) en.2).2) as Hout.
  { subst out. rewrite ServeHTTP_writer. unfold serve.
    fold b. destruct b as [ctx1 st1]. cbn [fst snd] in *. rewrite Hdec, Hh.
    rewrite !run_bind. fold a. destruct a as [[ctx2 st4] w1]. cbn [fst snd] in *.
    rewrite !run_bind. fold en. destruct en as [[err st5] w2]. cbn [fst snd] in *.
    subst err. by rewrite run_bind. }
  split_and!.
  - done.
  - rewrite Hout. apply run_Calls_prefix.
  - assert (outcome_of s r (Context r) st rec = EncodeFailed e) as Ho.
    { unfold outcome_of. fold b. rewrite Hdec, Hh. fold a. fold en. by rewrite Hen. }
    rewrite trace_eq, Ho.
    match goal with |- context [stages _ _ _ ++ ?f] => set (fin := f) end.
    exists fin. split.
    + subst fin. case_decide; [apply Forall_finalizer_events | done].
    + unfold stages. by rewrite <- !app_assoc.
Qed.

(** With a finalizer configured and the recording transport underneath, the
    code the finalizers receive is the code of the last status write of the
    call (200 when there was none) and the size in their context is the sum
    of the byte counts the transport accepted during the call. *)
Lemma finalizers_observe_transport {St Req Res} (s : Server St Req Res)
    (rec : ResponseRecorder) (r : Request) (st : St) :
  let body := run (serve s r (Context r) st) (intercept rec) in
  exists new,
    Calls (run (serve s r (Context r) st) rec).2 = Calls rec ++ new /\
    code body.2 = last_status 200 new /\
    written body.2 = wrap64 (accepted new).
Proof.
  intros body.
  destruct (intercepted_tally (serve s r (Context r) st) (intercept rec)) as
    (new & Hcalls & Hcode & Hwritten); [unfold in_int64; simpl; lia |].
  destruct (run_intercepted (serve s r (Context r) st) (intercept rec)) as [_ E].
  change (embedded (intercept rec)) with rec in E.
  exists new. rewrite <- E. split_and!; [exact Hcalls | exact Hcode | exact Hwritten].
Qed.

(** ** The sample values at work *)

Example created_response :
  Calls (ServeHTTP sample.server sample.transport sample.request tt).2 =
  [CallWriteHeader 201; CallWrite (sample.id1 +:+ newline) 9 None].
Proof. reflexivity. Qed.

Example rejected_request :
  Calls (ServeHTTP sample.rejecting_server sample.transport sample.request tt).2 =
  [CallWriteHeader 500; CallWrite "empty body" 10 None].
Proof. reflexivity. Qed.

Example half_written_response :
  Calls (ServeHTTP sample.half_written_server sample.transport sample.request tt).2 =
  [CallWriteHeader 200; CallWrite "partial" 7 None;
   CallWriteHeader 500; CallWrite "boom" 4 None].
Proof. reflexivity. Qed.

Example teapot_rendering :
  let out := run (DefaultErrorEncoder sample.canon Background sample.teapot tt)
               sample.transport in
  Calls out.2 = [CallWriteHeader 418; CallWrite "short and stout" 15 None] /\
  HeaderMap out.2 !! "Content-Type" = Some ["text/plain; charset=utf-8"] /\
  HeaderMap out.2 !! "Retry-After" = Some ["1"; "2"].
Proof. vm_compute. done. Qed.

Lemma ServeHTTP_finalizers_run_once_witness :
  (0 < length (finalizer sample.server))%nat /\
  trace sample.server sample.transport sample.request tt =
  [EvDecode None; EvHandle None; EvEncode None;
   EvFinalizer 0
     (WithValue
        (WithValue Background ContextKeyResponseHeaders
           (VHeader {[ "Content-Type" := ["application/json; charset=utf-8"] ]}))
        ContextKeyResponseSize (VInt64 9))
     201].
Proof.
  assert (0 < length (finalizer sample.server))%nat as H by (simpl; lia).
  split; [exact H |].
  destruct (ServeHTTP_finalizers_run_once sample.server sample.transport sample.request tt H)
    as [Htr _].
  rewrite Htr. reflexivity.
Defined.

Lemma EncodeJSONResponse_no_content_witness :
  default 200 (as_StatusCoder sample.no_content) = 204 /\
  default 200 (as_StatusCoder sample.payload) <> 204 /\
  json_Marshal sample.payload = inl sample.id1 /\
  Calls (run (EncodeJSONResponse sample.canon Background sample.no_content tt)
           sample.transport).2 = [CallWriteHeader 204] /\
  exists n e,
    Calls (run (EncodeJSONResponse sample.canon Background sample.payload tt)
             sample.transport).2 =
    [CallWriteHeader 200; CallWrite (sample.id1 +:+ newline) n e].
Proof.
  assert (default 200 (as_StatusCoder sample.no_content) = 204) as H204 by reflexivity.
  assert (default 200 (as_StatusCoder sample.payload) <> 204) as H200 by (simpl; lia).
  assert (json_Marshal sample.payload = inl sample.id1) as Hjson by reflexivity.
  split; [exact H204 |]. split; [exact H200 |]. split; [exact Hjson |]. split.
  - destruct (EncodeJSONResponse_no_content sample.canon Background sample.no_content tt
                sample.transport) as (_ & _ & Hno & _ & _).
    exact (proj2 (Hno H204)).
  - destruct (EncodeJSONResponse_no_content sample.canon Background sample.payload tt
                sample.transport) as (_ & _ & _ & _ & Hbody).
    destruct (Hbody H200 sample.id1 Hjson) as (n & e & _ & Hcalls).
    exists n, e. exact Hcalls.
Defined.

Lemma AddStatusCode_capabilities_witness :
  json_Marshal sample.payload = inl sample.id1 /\
  exists n e,
    Calls (run (EncodeJSONResponse sample.canon Background
                  (AddStatusCode (to_any sample.payload) 201) tt) sample.transport).2 =
    [CallWriteHeader 201; CallWrite (sample.id1 +:+ newline) n e].
Proof.
  assert (json_Marshal sample.payload = inl sample.id1) as Hjson by reflexivity.
  split; [exact Hjson |].
  destruct (AddStatusCode_capabilities sample.canon Background sample.payload 201 tt
              sample.transport) as (_ & _ & _ & Hbody).
  destruct (Hbody sample.id1 Hjson) as (n & e & _ & Hcalls).
  exists n, e. exact Hcalls.
Defined.

Lemma interceptingWriter_pass_through_witness :
  in_int64 (written (intercept sample.transport) +
            (Write "abc" (embedded (intercept sample.transport))).1.1) /\
  written (Write "abc" (intercept sample.transport)).2 = 3.
Proof.
  assert (in_int64 (written (intercept sample.transport) +
                    (Write "abc" (embedded (intercept sample.transport))).1.1)) as Hfit
    by (unfold in_int64; simpl; lia).
  split; [exact Hfit |].
  destruct (interceptingWriter_pass_through sample.transport (intercept sample.transport)
              0 "abc") as (_ & _ & _ & _ & _ & _ & Hsum & _).
  exact (Hsum Hfit).
Defined.


Lemma ServeHTTP_encode_failure_witness :
  dec sample.half_written_server Background sample.request tt = (inl tt, tt) /\
  h sample.half_written_server Background tt tt =
    (inl (AddStatusCode sample.payload 201), tt) /\
  (run (enc sample.half_written_server Background (AddStatusCode sample.payload 201) tt)
     sample.transport).1.1 = Some sample.boom /\
  [CallWriteHeader 200; CallWrite "partial" 7 None] `prefix_of`
    Calls (ServeHTTP sample.half_written_server sample.transport sample.request tt).2.
Proof.
  split; [reflexivity |]. split; [reflexivity |]. split; [reflexivity |].
  destruct (ServeHTTP_encode_failure sample.half_written_server sample.transport
              sample.request tt tt tt (AddStatusCode sample.payload 201) tt sample.boom
              eq_refl eq_refl eq_refl) as (_ & Hprefix & _).
  exact Hprefix.
Defined.

(** * Further properties *)

(** ** What the decorator records *)

(** X1. From its construction on, whatever calls are made through the
    intercepting writer, its code is the code of the last status write that
    reached the transport (200 when there was none) and its byte count is
    the sum of the counts the transport accepted, in [int64] arithmetic: the
    exact sum whenever that fits. *)
Theorem interceptingWriter_records {A} (m : writing A) (rec : ResponseRecorder) :
  let iw := (run m (intercept rec)).2 in
  exists new,
    Calls (embedded iw) = Calls rec ++ new /\
    code iw = last_status 200 new /\
    written iw = wrap64 (accepted new) /\
    (in_int64 (accepted new) -> written iw = accepted new).
Proof.
  intros iw. subst iw.
  destruct (intercepted_tally m (intercept rec)) as (new & Hcalls & Hcode & Hwritten);
    [unfold in_int64; simpl; lia |].
  exists new. split_and!; [exact Hcalls | exact Hcode | exact Hwritten |].
  intros Hfit. change (written (run m (intercept rec)).2 = wrap64 (0 + accepted new))
    in Hwritten.
  by rewrite Hwritten, Z.add_0_l, wrap64_small.
Qed.

Lemma interceptingWriter_records_witness :
  in_int64 (accepted [CallWriteHeader 201; CallWrite "abc" 3 None]) /\
  written (run (call_WriteHeader 201;; call_Write "abc") (intercept sample.transport)).2 = 3.
Proof.
  assert (in_int64 (accepted [CallWriteHeader 201; CallWrite "abc" 3 None])) as Hfit
    by (unfold in_int64; simpl; lia).
  split; [exact Hfit |].
  destruct (interceptingWriter_records (call_WriteHeader 201;; call_Write "abc")
              sample.transport) as (new & Hcalls & _ & _ & Hsum).
  assert (new = [CallWriteHeader 201; CallWrite "abc" 3 None]) as ->
    by (apply (app_inv_head (Calls sample.transport)); symmetry; exact Hcalls).
  exact (Hsum Hfit).
Defined.

(** X2. With a finalizer configured and the recording transport underneath,
    every finalizer is given the code of the last status write the transport
    received during the call, 200 when it received none, and a context in
    which the response size is the sum of the byte counts the transport
    accepted during the call and the response headers are the header map
    the transport ends with. *)
Theorem ServeHTTP_finalizers_observe_transport {St Req Res} (s : Server St Req Res)
    (rec : ResponseRecorder) (r : Request) (st : St) :
  (0 < length (finalizer s))%nat ->
  exists new ctx,
    Calls (ServeHTTP s rec r st).2 = Calls rec ++ new /\
    trace s rec r st =
      stages (length (before s)) (length (after s)) (outcome_of s r (Context r) st rec) ++
      finalizer_events (length (finalizer s)) ctx (last_status 200 new) /\
    Value ctx ContextKeyResponseSize = Some (VInt64 (wrap64 (accepted new))) /\
    Value ctx ContextKeyResponseHeaders =
      Some (VHeader (HeaderMap (ServeHTTP s rec r st).2)).
Proof.
  intros Hfin.
  destruct (finalizers_observe_transport s rec r st) as (new & Hcalls & Hcode & Hwritten).
  destruct (run_intercepted (serve s r (Context r) st) (intercept rec)) as [_ E].
  change (embedded (intercept rec)) with rec in E.
  exists new. eexists. rewrite ServeHTTP_writer, trace_eq, decide_True by done.
  cbv zeta. rewrite Hcode, Hwritten. split_and!; [exact Hcalls | reflexivity | done |].
  simpl. by rewrite <- E.
Qed.

Lemma ServeHTTP_finalizers_observe_transport_witness :
  (0 < length (finalizer sample.rejecting_server))%nat /\
  exists ctx,
    trace sample.rejecting_server sample.transport sample.request tt =
    [EvDecode (Some sample.empty_body); EvErrorHandler sample.empty_body;
     EvErrorEncoder sample.empty_body; EvFinalizer 0 ctx 500] /\
    Value ctx ContextKeyResponseSize = Some (VInt64 10).
Proof.
  assert (0 < length (finalizer sample.rejecting_server))%nat as H by (simpl; lia).
  split; [exact H |].
  destruct (ServeHTTP_finalizers_observe_transport sample.rejecting_server sample.transport
              sample.request tt H) as (new & ctx & Hcalls & Htr & Hsize & _).
  assert (new = [CallWriteHeader 500; CallWrite "empty body" 10 None]) as ->
    by (apply (app_inv_head (Calls sample.transport)); symmetry; exact Hcalls).
  exists ctx. split; [exact Htr | exact Hsize].
Defined.

(** ** Options *)

Section OptionFacts.
Context {St Req Res : Type}.

Lemma default_last_cons {B} (y : B) (l : list B) (d : B) :
  default d (last (y :: l)) = default y (last l).
Proof.
  revert y d. induction l as [| z l IH]; intros y d; [done |].
  change (last (y :: z :: l)) with (last (z :: l)). by rewrite !IH.
Qed.

Lemma last_omap_cons {A B} (f : A -> option B) (x : A) (l : list A) (d : B) :
  default d (last (omap f (x :: l))) = default (default d (f x)) (last (omap f l)).
Proof.
  change (omap f (x :: l)) with (match f x with Some y => y :: omap f l | None => omap f l end).
  destruct (f x) as [y |]; [| done]. apply default_last_cons.
Qed.

Lemma options_fold (os : list (option_of St)) (s : Server St Req Res) :
  let s' := foldl (fun s option => option s) s (map build_option os) in
  before s' = before s ++ registered_before os /\
  after s' = after s ++ registered_after os /\
  finalizer s' = finalizer s ++ registered_finalizer os /\
  errorHandler s' = default (errorHandler s) (registered_errorHandler os) /\
  h s' = h s /\ dec s' = dec s /\ enc s' = enc s /\ errorEncoder s' = errorEncoder s.
Proof.
  revert s. induction os as [| o os IH]; intros s; cbn [map foldl].
  - unfold registered_before, registered_after, registered_finalizer. simpl.
    by rewrite !app_nil_r.
  - destruct (IH (build_option o s)) as (Hb & Ha & Hf & He & Hh & Hd & Hen & Hee).
    cbv zeta. rewrite Hb, Ha, Hf, He, Hh, Hd, Hen, Hee.
    unfold registered_errorHandler. rewrite last_omap_cons.
    unfold registered_before, registered_after, registered_finalizer.
    destruct o; simpl; by rewrite <- ?app_assoc.
Qed.
End OptionFacts.

(** X4. A server built by [NewServer] from any list of options made with
    the four option constructors runs the pre-hooks, the post-hooks and the
    finalizers of all of them, each kind in the order of registration; its
    error handler is the one named by the last [ServerErrorHandler] option,
    the default when there is none; handler, decoder, encoder and error
    encoder are those [NewServer] was given or set. *)
Theorem NewServer_options {St Req Res} canon (h0 : HandlerFunc St Req Res)
    (dec0 : DecodeRequestFunc St Req) (enc0 : EncodeReponseFunc St Res)
    (os : list (option_of St)) :
  let s := NewServer canon h0 dec0 enc0 (map build_option os) in
  before s = registered_before os /\
  after s = registered_after os /\
  finalizer s = registered_finalizer os /\
  errorHandler s =
    default (errorHandler (NewServer canon h0 dec0 enc0 [])) (registered_errorHandler os) /\
  h s = h0 /\ dec s = dec0 /\ enc s = enc0 /\ errorEncoder s = DefaultErrorEncoder canon.
Proof.
  intros s. subst s. unfold NewServer.
  apply (options_fold os
    {| h := h0; dec := dec0; enc := enc0; before := []; after := [];
       errorEncoder := DefaultErrorEncoder canon; finalizer := [];
       errorHandler := ErrorHandlerFunc LogErrorHandler |}).
Qed.

(** ** Headers set earlier *)

Section EarlierHeaders.
Variable canon : string -> string.

Lemma add_values_other key values h k :
  canon key <> canon k ->
  Header_Values canon (add_values canon key values h) k = Header_Values canon h k.
Proof.
  intros Hne. revert h. induction values as [| v values IH]; intros h; simpl; [done |].
  by rewrite IH, Header_Values_Add, decide_False.
Qed.

Lemma add_headers_other hs h k :
  Forall (fun kv => canon kv.1 <> canon k) hs ->
  Header_Values canon (add_headers canon hs h) k = Header_Values canon h k.
Proof.
  intros Hhs. revert h. induction Hhs as [| [key values] hs Hne _ IH]; intros h; simpl;
    [done |].
  by rewrite IH, add_values_other.
Qed.

(** The header map after a content type was set and headers were added. *)
Lemma rendered_headers ct hs h :
  (forall k, canon k <> canon "Content-Type" ->
     Header_Values canon h k `prefix_of`
     Header_Values canon (add_headers canon hs (Header_Set canon "Content-Type" ct h)) k) /\
  (forall k, canon k <> canon "Content-Type" ->
     Forall (fun kv => canon kv.1 <> canon k) hs ->
     Header_Values canon (add_headers canon hs (Header_Set canon "Content-Type" ct h)) k =
     Header_Values canon h k) /\
  (Forall (fun kv => canon kv.1 <> canon "Content-Type") hs ->
     Header_Values canon (add_headers canon hs (Header_Set canon "Content-Type" ct h))
       "Content-Type" = [ct]).
Proof.
  split_and!.
  - intros k Hk. etrans; [| apply add_headers_prefix].
    by rewrite Header_Values_Set, decide_False.
  - intros k Hk Hhs. rewrite add_headers_other by done.
    by rewrite Header_Values_Set, decide_False.
  - intros Hhs. rewrite add_headers_other by done.
    by rewrite Header_Values_Set, decide_True.
Qed.
End EarlierHeaders.

(** X5. [DefaultErrorEncoder] never removes a header that was set before it
    ran, except the content type. For a key other than Content-Type the
    values present before stay in front of whatever the error adds, and
    stay as they are when the error provides nothing for that key. The
    values of Content-Type present before are replaced: when the error
    provides no content type of its own, the resolved one is the only value
    left. *)
Theorem DefaultErrorEncoder_earlier_headers {St} canon ctx err (st : St)
    (rec : ResponseRecorder) :
  let out := run (DefaultErrorEncoder canon ctx err st) rec in
  let contentType := match error_Marshaler err with
                     | Some (_, None) => "application/json; charset=utf-8"
                     | _ => "text/plain; charset=utf-8"
                     end in
  let provided := default [] (error_Headerer err) in
  (forall k, canon k <> canon "Content-Type" ->
     Header_Values canon (HeaderMap rec) k `prefix_of`
     Header_Values canon (HeaderMap out.2) k) /\
  (forall k, canon k <> canon "Content-Type" ->
     Forall (fun kv => canon kv.1 <> canon k) provided ->
     Header_Values canon (HeaderMap out.2) k = Header_Values canon (HeaderMap rec) k) /\
  (Forall (fun kv => canon kv.1 <> canon "Content-Type") provided ->
     Header_Values canon (HeaderMap out.2) "Content-Type" = [contentType]).
Proof.
  intros out contentType provided. subst out.
  rewrite DefaultErrorEncoder_run. cbn [fst snd HeaderMap].
  assert ((error_rendering err).1 = contentType) as ->.
  { subst contentType. unfold error_rendering.
    by destruct (error_Marshaler err) as [[b [f |]] |]. }
  apply rendered_headers.
Qed.

Lemma DefaultErrorEncoder_earlier_headers_witness :
  sample.canon "X-Request-Id" <> sample.canon "Content-Type" /\
  Forall (fun kv => sample.canon kv.1 <> sample.canon "X-Request-Id")
    (default [] (error_Headerer sample.teapot)) /\
  Header_Values sample.canon
    (HeaderMap (run (DefaultErrorEncoder sample.canon Background sample.teapot tt)
                  (NewRecorder {[ "X-Request-Id" := ["42"] ]})).2) "X-Request-Id" = ["42"].
Proof.
  assert (sample.canon "X-Request-Id" <> sample.canon "Content-Type") as Hk by done.
  assert (Forall (fun kv => sample.canon kv.1 <> sample.canon "X-Request-Id")
            (default [] (error_Headerer sample.teapot))) as Hhs
    by (by repeat constructor).
  split; [exact Hk |]. split; [exact Hhs |].
  destruct (DefaultErrorEncoder_earlier_headers sample.canon Background sample.teapot tt
              (NewRecorder {[ "X-Request-Id" := ["42"] ]})) as (_ & Hsame & _).
  exact (Hsame "X-Request-Id" Hk Hhs).
Defined.

(** X6. [EncodeJSONResponse] replaces whatever content type was set before
    it ran, by a post-hook for instance: unless the response provides a
    content type header itself, application/json is the only value left,
    also when the status is 204 or the value fails to serialize. Headers of
    other keys set before stay in front of what the response adds. *)
Theorem EncodeJSONResponse_earlier_headers {St} `{Response Res} canon ctx (response : Res)
    (st : St) (rec : ResponseRecorder) :
  let out := run (EncodeJSONResponse canon ctx response st) rec in
  let provided := default [] (as_Headerer response) in
  (forall k, canon k <> canon "Content-Type" ->
     Header_Values canon (HeaderMap rec) k `prefix_of`
     Header_Values canon (HeaderMap out.2) k) /\
  (forall k, canon k <> canon "Content-Type" ->
     Forall (fun kv => canon kv.1 <> canon k) provided ->
     Header_Values canon (HeaderMap out.2) k = Header_Values canon (HeaderMap rec) k) /\
  (Forall (fun kv => canon kv.1 <> canon "Content-Type") provided ->
     Header_Values canon (HeaderMap out.2) "Content-Type" =
     ["application/json; charset=utf-8"]).
Proof.
  intros out provided. subst out. rewrite EncodeJSONResponse_run. cbv zeta.
  assert (forall (x : option error * St) cs,
    HeaderMap (x, {| HeaderMap := add_headers canon provided
                       (Header_Set canon "Content-Type" "application/json; charset=utf-8"
                          (HeaderMap rec));
                     Calls := cs; answer := answer rec |}).2 =
    add_headers canon provided
      (Header_Set canon "Content-Type" "application/json; charset=utf-8" (HeaderMap rec)))
    as Hh by done.
  case_decide; [| destruct (json_Marshal response)]; rewrite Hh; apply rendered_headers.
Qed.

Lemma EncodeJSONResponse_earlier_headers_witness :
  Forall (fun kv => sample.canon kv.1 <> sample.canon "Content-Type")
    (default [] (as_Headerer sample.payload)) /\
  Header_Values sample.canon
    (HeaderMap (run (EncodeJSONResponse sample.canon Background sample.payload tt)
                  (NewRecorder {[ "Content-Type" := ["text/csv"] ]})).2) "Content-Type" =
  ["application/json; charset=utf-8"].
Proof.
  assert (Forall (fun kv => sample.canon kv.1 <> sample.canon "Content-Type")
            (default [] (as_Headerer sample.payload))) as Hhs by constructor.
  split; [exact Hhs |].
  destruct (EncodeJSONResponse_earlier_headers sample.canon Background sample.payload tt
              (NewRecorder {[ "Content-Type" := ["text/csv"] ]})) as (_ & _ & Hct).
  exact (Hct Hhs).
Defined.

(** X7. [EncodeJSONResponse] leaves the state of its caller alone, and it
    returns no error exactly when the status is 204 or the value serializes
    and the transport accepts the one body write without failure; a short
    count from the transport is not an error. *)
Theorem EncodeJSONResponse_fails_iff {St} `{Response Res} canon ctx (response : Res)
    (st : St) (rec : ResponseRecorder) :
  let out := run (EncodeJSONResponse canon ctx response st) rec in
  let code := default 200 (as_StatusCoder response) in
  out.1.2 = st /\
  (out.1.1 = None <->
   code = 204 \/
   exists b, json_Marshal response = inl b /\
             (answer rec (Calls rec ++ [CallWriteHeader code]) (b +:+ newline)).2 = None).
Proof.
  intros out code. subst out. rewrite EncodeJSONResponse_run.
  assert (response_code response = code) as ->.
  { subst code. unfold response_code. simpl. by destruct (as_StatusCoder response). }
  cbv zeta. case_decide as Hc.
  - split; [done |]. split; [by left | done].
  - destruct (json_Marshal response) as [b | e]; cbn [fst snd].
    + split; [done |]. split.
      * intros Hnone. right. by exists b.
      * intros [? | (b' & [= <-] & Hnone)]; done.
    + split; [done |]. split; [done |]. by intros [? | (b' & [=] & _)].
Qed.

(** ** The paths through a call *)

Section Paths.
Context {St Req Res : Type}.
Implicit Types (s : Server St Req Res) (st : St) (r : Request).

(** The body of a call whose decoder and handler succeed. *)
Lemma serve_handled `{ResponseWriter W} s r ctx st (w : W) req st2 resp st3 :
  dec s (run_before (before s) r ctx st).1 r (run_before (before s) r ctx st).2 =
    (inl req, st2) ->
  h s (run_before (before s) r ctx st).1 req st2 = (inl resp, st3) ->
  let a := run (run_after (after s) (run_before (before s) r ctx st).1 st3) w in
  let en := run (enc s a.1.1 resp a.1.2) a.2 in
  run (serve s r ctx st) w =
    match en.1.1 with
    | Some e => (a.1.1, (run (report s a.1.1 e en.1.2) en.2).1,
                 (run (report s a.1.1 e en.1.2) en.2).2)
    | None => (a.1.1, en.1.2, en.2)
    end /\
  outcome_of s r ctx st w =
    match en.1.1 with
    | Some e => EncodeFailed e
    | None => Succeeded
    end.
Proof.
  intros Hdec Hh a en. unfold serve, outcome_of.
  destruct (run_before (before s) r ctx st) as [ctx1 st1]. cbn [fst snd] in *.
  rewrite Hdec, Hh. rewrite !run_bind. fold a.
  destruct a as [[ctx2 st4] w1]. cbn [fst snd] in *. rewrite !run_bind. fold en.
  destruct en as [[[e |] st5] w2]; cbn [fst snd]; [| done].
  by rewrite run_bind.
Qed.

(** The body of a call whose decoder or handler fails. *)
Lemma serve_early_failure `{ResponseWriter W} s r ctx st (w : W) e :
  outcome_of s r ctx st w = DecodeFailed e \/ outcome_of s r ctx st w = HandleFailed e ->
  exists st',
    run (serve s r ctx st) w =
    ((run_before (before s) r ctx st).1,
     (run (report s (run_before (before s) r ctx st).1 e st') w).1,
     (run (report s (run_before (before s) r ctx st).1 e st') w).2).
Proof.
  unfold serve, outcome_of.
  destruct (run_before (before s) r ctx st) as [ctx1 st1]. cbn [fst snd].
  destruct (dec s ctx1 r st1) as [[req | e1] st2].
  - destruct (h s ctx1 req st2) as [[resp | e2] st3].
    + intros [Ho | Ho]; by destruct (run (enc s _ resp _) _).1.1.
    + intros [[=] | [= <-]]. exists st3. by rewrite run_bind.
  - intros [[= <-] | [=]]. exists st2. by rewrite run_bind.
Qed.
End Paths.

Lemma statuses_of_app cs1 cs2 : statuses_of (cs1 ++ cs2) = statuses_of cs1 ++ statuses_of cs2.
Proof. unfold statuses_of. apply omap_app. Qed.

(** X8. With [EncodeJSONResponse] as encoder and [DefaultErrorEncoder] as
    error encoder, a response that fails to serialize under a status other
    than 204 makes the transport receive two status writes and one body:
    first the status of the response, written before serialization was
    tried, then the status and the rendering of the serialization error. *)
Theorem ServeHTTP_marshal_failure {St Req} `{Response Res} canon
    (s : Server St Req Res) (rec : ResponseRecorder) (r : Request) (st : St)
    req st2 resp st3 e :
  enc s = EncodeJSONResponse canon ->
  errorEncoder s = DefaultErrorEncoder canon ->
  dec s (run_before (before s) r (Context r) st).1 r
    (run_before (before s) r (Context r) st).2 = (inl req, st2) ->
  h s (run_before (before s) r (Context r) st).1 req st2 = (inl resp, st3) ->
  json_Marshal resp = inr e ->
  default 200 (as_StatusCoder resp) <> 204 ->
  let posted :=
    (run (run_after (after s) (run_before (before s) r (Context r) st).1 st3) rec).2 in
  let body := match error_Marshaler e with
              | Some (jsonBody, None) => jsonBody
              | _ => Error e
              end in
  exists n err,
    Calls (ServeHTTP s rec r st).2 =
    Calls posted ++ [CallWriteHeader (default 200 (as_StatusCoder resp));
                     CallWriteHeader (default 500 (error_StatusCoder e));
                     CallWrite body n err].
Proof.
  intros Henc Hee Hdec Hh Hjson Hcode posted body.
  rewrite ServeHTTP_writer.
  destruct (serve_handled s r (Context r) st rec req st2 resp st3 Hdec Hh) as [-> _].
  fold posted. rewrite Henc, EncodeJSONResponse_run. cbv zeta.
  assert (response_code resp = default 200 (as_StatusCoder resp)) as ->.
  { unfold response_code. simpl. by destruct (as_StatusCoder resp). }
  rewrite decide_False, Hjson by done. cbn [fst snd].
  unfold report. rewrite Hee, DefaultErrorEncoder_run. cbn [fst snd Calls answer].
  assert (error_code e = default 500 (error_StatusCoder e)) as ->
    by (unfold error_code; by destruct (error_StatusCoder e)).
  assert ((error_rendering e).2 = body) as ->.
  { subst body. unfold error_rendering. by destruct (error_Marshaler e) as [[b [f |]] |]. }
  eexists _, _. by rewrite <- !app_assoc.
Qed.

(** X9. Encoding [AddStatusCode(v, c)] with [EncodeJSONResponse] uses
    nothing of what [v] provides besides its serialization: the headers [v]
    provides are not sent, only the content type is set, and the status
    written is [c] whatever status [v] declares. With [c] 204 nothing of
    [v] is written at all. *)
Theorem AddStatusCode_overrides {St} `{Response V} canon ctx (v : V) (c : Z) (st : St)
    (rec : ResponseRecorder) :
  let out := run (EncodeJSONResponse canon ctx (AddStatusCode (to_any v) c) st) rec in
  HeaderMap out.2 =
    Header_Set canon "Content-Type" "application/json; charset=utf-8" (HeaderMap rec) /\
  statuses_of (Calls out.2) = statuses_of (Calls rec) ++ [c] /\
  (c = 204 -> out.1 = (None, st) /\ Calls out.2 = Calls rec ++ [CallWriteHeader 204]).
Proof.
  intros out. subst out. rewrite EncodeJSONResponse_run. cbv zeta.
  change (response_code (AddStatusCode (to_any v) c)) with c.
  change (default [] (as_Headerer (AddStatusCode (to_any v) c))) with (@nil (string * list string)).
  case_decide as Hc.
  - cbn [fst snd HeaderMap Calls]. split; [done |].
    split; [by rewrite statuses_of_app |]. intros _. by rewrite Hc.
  - destruct (json_Marshal (AddStatusCode (to_any v) c)) as [b | e];
      cbn [fst snd HeaderMap Calls].
    + split; [done |]. split; [| done]. rewrite !statuses_of_app.
      change (statuses_of [CallWrite _ _ _]) with (@nil Z). by rewrite app_nil_r.
    + split; [done |]. split; [by rewrite statuses_of_app | done].
Qed.

Lemma AddStatusCode_overrides_witness :
  (204 : Z) = 204 /\
  Calls (run (EncodeJSONResponse sample.canon Background
                (AddStatusCode (to_any sample.payload) 204) tt) sample.transport).2 =
  [CallWriteHeader 204].
Proof.
  split; [reflexivity |].
  destruct (AddStatusCode_overrides sample.canon Background sample.payload 204 tt
              sample.transport) as (_ & _ & Hno).
  exact (proj2 (Hno eq_refl)).
Defined.

(** X10. When the decoder or the handler fails with [e] and the error
    encoder is [DefaultErrorEncoder], the transport receives exactly the
    status of [e] (500 unless [e] provides one) and the rendering of [e],
    nothing else; and with finalizers configured each of them is given that
    status. *)
Theorem ServeHTTP_early_failure_rendering {St Req Res} canon (s : Server St Req Res)
    (rec : ResponseRecorder) (r : Request) (st : St) e :
  errorEncoder s = DefaultErrorEncoder canon ->
  outcome_of s r (Context r) st rec = DecodeFailed e \/
  outcome_of s r (Context r) st rec = HandleFailed e ->
  let code := default 500 (error_StatusCoder e) in
  let body := match error_Marshaler e with
              | Some (jsonBody, None) => jsonBody
              | _ => Error e
              end in
  (exists n err,
     Calls (ServeHTTP s rec r st).2 = Calls rec ++ [CallWriteHeader code; CallWrite body n err]) /\
  ((0 < length (finalizer s))%nat ->
   exists ctx,
     trace s rec r st =
     stages (length (before s)) (length (after s)) (outcome_of s r (Context r) st rec) ++
     finalizer_events (length (finalizer s)) ctx code).
Proof.
  intros Hee Ho code body.
  assert (exists n err,
    Calls (run (serve s r (Context r) st) rec).2 =
    Calls rec ++ [CallWriteHeader code; CallWrite body n err]) as (n & err & Hcalls).
  { destruct (serve_early_failure s r (Context r) st rec e Ho) as (st' & ->).
    unfold report. rewrite Hee, DefaultErrorEncoder_run. cbn [fst snd Calls].
    assert (error_code e = code) as ->
      by (subst code; unfold error_code; by destruct (error_StatusCoder e)).
    assert ((error_rendering e).2 = body) as ->.
    { subst body. unfold error_rendering. by destruct (error_Marshaler e) as [[b [f |]] |]. }
    eexists _, _. by rewrite <- !app_assoc. }
  split.
  - exists n, err. by rewrite ServeHTTP_writer.
  - intros Hfin.
    destruct (finalizers_observe_transport s rec r st) as (new & Hnew & Hcode & _).
    assert (new = [CallWriteHeader code; CallWrite body n err]) as ->
      by (apply (app_inv_head (Calls rec)); by rewrite <- Hnew, Hcalls).
    rewrite trace_eq, decide_True by done. cbv zeta. rewrite Hcode.
    eexists. reflexivity.
Qed.

Lemma ServeHTTP_early_failure_rendering_witness :
  errorEncoder sample.rejecting_server = DefaultErrorEncoder sample.canon /\
  outcome_of sample.rejecting_server sample.request (Context sample.request) tt
    sample.transport = DecodeFailed sample.empty_body /\
  exists n err,
    Calls (ServeHTTP sample.rejecting_server sample.transport sample.request tt).2 =
    [CallWriteHeader 500; CallWrite "empty body" n err].
Proof.
  split; [reflexivity |].
  assert (outcome_of sample.rejecting_server sample.request (Context sample.request) tt
            sample.transport = DecodeFailed sample.empty_body) as Ho by reflexivity.
  split; [exact Ho |].
  destruct (ServeHTTP_early_failure_rendering sample.canon sample.rejecting_server
              sample.transport sample.request tt sample.empty_body eq_refl (or_introl Ho))
    as [Hcalls _].
  exact Hcalls.
Defined.

Lemma ServeHTTP_marshal_failure_witness :
  enc sample.broken_server = EncodeJSONResponse sample.canon /\
  errorEncoder sample.broken_server = DefaultErrorEncoder sample.canon /\
  json_Marshal sample.unserializable = inr sample.boom /\
  default 200 (as_StatusCoder sample.unserializable) <> 204 /\
  exists n err,
    Calls (ServeHTTP sample.broken_server sample.transport sample.request tt).2 =
    [CallWriteHeader 200; CallWriteHeader 500; CallWrite "boom" n err].
Proof.
  assert (default 200 (as_StatusCoder sample.unserializable) <> 204) as Hcode
    by (simpl; lia).
  split; [reflexivity |]. split; [reflexivity |]. split; [reflexivity |].
  split; [exact Hcode |].
  exact (ServeHTTP_marshal_failure sample.canon sample.broken_server sample.transport
           sample.request tt tt tt sample.unserializable tt sample.boom
           eq_refl eq_refl eq_refl eq_refl eq_refl Hcode).
Defined.

(** X11. With [EncodeJSONResponse] as encoder, no post-hooks and at least
    one finalizer, a call whose handler returns a response of status 204
    sends the status line only, and every finalizer is given code 204 and a
    context whose response size is 0. *)
Theorem ServeHTTP_no_content {St Req} `{Response Res} canon (s : Server St Req Res)
    (rec : ResponseRecorder) (r : Request) (st : St) req st2 resp st3 :
  enc s = EncodeJSONResponse canon ->
  after s = [] ->
  (0 < length (finalizer s))%nat ->
  dec s (run_before (before s) r (Context r) st).1 r
    (run_before (before s) r (Context r) st).2 = (inl req, st2) ->
  h s (run_before (before s) r (Context r) st).1 req st2 = (inl resp, st3) ->
  default 200 (as_StatusCoder resp) = 204 ->
  Calls (ServeHTTP s rec r st).2 = Calls rec ++ [CallWriteHeader 204] /\
  exists ctx,
    trace s rec r st =
      map EvBefore (seq 0 (length (before s))) ++
      [EvDecode None; EvHandle None; EvEncode None] ++
      finalizer_events (length (finalizer s)) ctx 204 /\
    Value ctx ContextKeyResponseSize = Some (VInt64 0).
Proof.
  intros Henc Hafter Hfin Hdec Hh Hcode.
  destruct (serve_handled s r (Context r) st rec req st2 resp st3 Hdec Hh) as [Hrun Ho].
  rewrite Hafter, Henc in Hrun, Ho. cbn [run_after run fst snd] in Hrun, Ho.
  rewrite EncodeJSONResponse_run in Hrun, Ho. cbv zeta in Hrun, Ho.
  assert (response_code resp = 204) as Hrc.
  { unfold response_code. simpl. by destruct (as_StatusCoder resp). }
  rewrite Hrc, decide_True in Hrun, Ho by done. cbn [fst snd] in Hrun, Ho.
  assert (Calls (run (serve s r (Context r) st) rec).2 = Calls rec ++ [CallWriteHeader 204])
    as Hcalls by (by rewrite Hrun).
  split; [by rewrite ServeHTTP_writer |].
  destruct (finalizers_observe_transport s rec r st) as (new & Hnew & Hc & Hw).
  assert (new = [CallWriteHeader 204]) as ->
    by (apply (app_inv_head (Calls rec)); by rewrite <- Hnew, Hcalls).
  rewrite trace_eq, decide_True, Ho by done. cbv zeta. rewrite Hc, Hw.
  unfold stages. rewrite Hafter. eexists. split; [by rewrite <- !app_assoc | done].
Qed.

Lemma ServeHTTP_no_content_witness :
  enc sample.silent_server = EncodeJSONResponse sample.canon /\
  after sample.silent_server = [] /\
  (0 < length (finalizer sample.silent_server))%nat /\
  default 200 (as_StatusCoder sample.no_content) = 204 /\
  Calls (ServeHTTP sample.silent_server sample.transport sample.request tt).2 =
  [CallWriteHeader 204].
Proof.
  assert (0 < length (finalizer sample.silent_server))%nat as Hfin by (simpl; lia).
  split; [reflexivity |]. split; [reflexivity |]. split; [exact Hfin |].
  split; [reflexivity |].
  exact (proj1 (ServeHTTP_no_content sample.canon sample.silent_server sample.transport
                  sample.request tt tt tt sample.no_content tt
                  eq_refl eq_refl Hfin eq_refl eq_refl eq_refl)).
Defined.

(** ** The two versions of the server *)

(** X12. A server of the first version and the same server in the second
    version, with no finalizers and an error handler that changes nothing,
    serve every request alike: they leave the same state and the same
    transport. *)
Theorem ServeHTTP_upgrade {St Req Res} `{ResponseWriter W} (s : v1.Server St Req Res)
    (eh : ErrorHandler St) (w : W) (r : Request) (st : St) :
  (forall ctx err st, Handle eh ctx err st = st) ->
  ServeHTTP (upgrade s eh) w r st = v1.ServeHTTP s w r st.
Proof.
  intros Heh. unfold ServeHTTP, v1.ServeHTTP. cbn [upgrade finalizer length].
  rewrite decide_False by lia. unfold serve, v1.serve, report.
  cbn [upgrade before after dec h enc errorEncoder errorHandler].
  destruct (run_before (v1.before s) r (Context r) st) as [ctx1 st1].
  destruct (v1.dec s ctx1 r st1) as [[req | e] st2].
  2:{ rewrite run_bind, Heh. by destruct (run (v1.errorEncoder s ctx1 e st2) w). }
  destruct (v1.h s ctx1 req st2) as [[resp | e] st3].
  2:{ rewrite run_bind, Heh. by destruct (run (v1.errorEncoder s ctx1 e st3) w). }
  rewrite !run_bind.
  destruct (run (run_after (v1.after s) ctx1 st3) w) as [[ctx2 st4] w1]. cbn [fst snd].
  rewrite !run_bind.
  destruct (run (v1.enc s ctx2 resp st4) w1) as [[[e |] st5] w2]; cbn [fst snd]; [| done].
  rewrite run_bind, Heh. by destruct (run (v1.errorEncoder s ctx2 e st5) w2).
Qed.

Lemma ServeHTTP_upgrade_witness :
  (forall ctx err st, Handle sample.quiet ctx err st = st) /\
  ServeHTTP (upgrade sample.first_server sample.quiet) sample.transport sample.request tt =
  v1.ServeHTTP sample.first_server sample.transport sample.request tt.
Proof.
  assert (forall ctx err st, Handle sample.quiet ctx err st = st) as Hq by reflexivity.
  split; [exact Hq |].
  exact (ServeHTTP_upgrade sample.first_server sample.quiet sample.transport
           sample.request tt Hq).
Defined.

(** ** What finalizers are told *)

(** X19. When the decoder or the handler fails and finalizers are
    configured, the context the finalizers are given carries, under the
    keys of callers, exactly what the context had after the pre-hooks: what
    pre-hooks stored is there, and no post-hook has contributed. *)
Theorem ServeHTTP_early_failure_context {St Req Res} `{ResponseWriter W}
    (s : Server St Req Res) (w : W) (r : Request) (st : St) e :
  outcome_of s r (Context r) st w = DecodeFailed e \/
  outcome_of s r (Context r) st w = HandleFailed e ->
  (0 < length (finalizer s))%nat ->
  exists ctx code,
    trace s w r st =
      stages (length (before s)) (length (after s)) (outcome_of s r (Context r) st w) ++
      finalizer_events (length (finalizer s)) ctx code /\
    forall name,
      Value ctx (OtherKey name) =
      Value (run_before (before s) r (Context r) st).1 (OtherKey name).
Proof.
  intros Ho Hfin. rewrite trace_eq, decide_True by done. cbv zeta.
  change w with (embedded (intercept w)) in Ho.
  rewrite <- !outcome_of_intercepted in Ho.
  destruct (serve_early_failure s r (Context r) st (intercept w) e Ho) as (st' & ->).
  eexists _, _. split; [reflexivity | done].
Qed.

Lemma ServeHTTP_early_failure_context_witness :
  outcome_of sample.rejecting_server sample.request (Context sample.request) tt
    sample.transport = DecodeFailed sample.empty_body /\
  (0 < length (finalizer sample.rejecting_server))%nat /\
  exists ctx code,
    trace sample.rejecting_server sample.transport sample.request tt =
    [EvDecode (Some sample.empty_body); EvErrorHandler sample.empty_body;
     EvErrorEncoder sample.empty_body; EvFinalizer 0 ctx code] /\
    forall name, Value ctx (OtherKey name) = None.
Proof.
  assert (outcome_of sample.rejecting_server sample.request (Context sample.request) tt
            sample.transport = DecodeFailed sample.empty_body) as Ho by reflexivity.
  assert (0 < length (finalizer sample.rejecting_server))%nat as Hfin by (simpl; lia).
  split; [exact Ho |]. split; [exact Hfin |].
  destruct (ServeHTTP_early_failure_context sample.rejecting_server sample.transport
              sample.request tt sample.empty_body (or_introl Ho) Hfin)
    as (ctx & code & Htr & Hctx).
  exists ctx, code. split; [exact Htr | exact Hctx].
Defined.

Lemma last_status_rendered d cs c p n err :
  last_status d (cs ++ [CallWriteHeader c; CallWrite p n err]) = c.
Proof.
  unfold last_status. rewrite statuses_of_app.
  change (statuses_of [CallWriteHeader c; CallWrite p n err]) with [c].
  apply List.last_last.
Qed.

(** X20. When the encoder fails and the error encoder is
    [DefaultErrorEncoder], the code the finalizers are given is the status
    of the error (500 unless it provides one), whatever status the encoder
    or a post-hook had written to the transport before. *)
Theorem ServeHTTP_encode_failure_code {St Req Res} canon (s : Server St Req Res)
    (rec : ResponseRecorder) (r : Request) (st : St) e :
  errorEncoder s = DefaultErrorEncoder canon ->
  outcome_of s r (Context r) st rec = EncodeFailed e ->
  (0 < length (finalizer s))%nat ->
  exists ctx earlier n err,
    trace s rec r st =
      stages (length (before s)) (length (after s)) (EncodeFailed e) ++
      finalizer_events (length (finalizer s)) ctx (default 500 (error_StatusCoder e)) /\
    Calls (ServeHTTP s rec r st).2 =
      Calls rec ++ earlier ++
      [CallWriteHeader (default 500 (error_StatusCoder e));
       CallWrite (error_rendering e).2 n err].
Proof.
  intros Hee Ho Hfin.
  assert (exists earlier n err,
    Calls (run (serve s r (Context r) st) rec).2 =
    Calls rec ++ earlier ++
    [CallWriteHeader (default 500 (error_StatusCoder e));
     CallWrite (error_rendering e).2 n err]) as (earlier & n & err & Hcalls).
  { revert Ho. unfold outcome_of, serve.
    destruct (run_before (before s) r (Context r) st) as [ctx1 st1]. cbn [fst snd].
    destruct (dec s ctx1 r st1) as [[req | e1] st2]; [| done].
    destruct (h s ctx1 req st2) as [[resp | e2] st3]; [| done].
    rewrite !run_bind.
    destruct (run_Calls_prefix (run_after (after s) ctx1 st3) rec) as [l1 Hl1].
    destruct (run (run_after (after s) ctx1 st3) rec) as [[ctx2 st4] w1].
    cbn [fst snd] in *. rewrite !run_bind.
    destruct (run_Calls_prefix (enc s ctx2 resp st4) w1) as [l2 Hl2].
    destruct (run (enc s ctx2 resp st4) w1) as [[[e3 |] st5] w2]; cbn [fst snd] in *;
      [| done].
    intros [= ->]. rewrite run_bind. unfold report.
    rewrite Hee, DefaultErrorEncoder_run. cbn [fst snd Calls].
    assert (error_code e = default 500 (error_StatusCoder e)) as ->
      by (unfold error_code; by destruct (error_StatusCoder e)).
    exists (l1 ++ l2). eexists _, _. rewrite Hl2, Hl1. by rewrite <- !app_assoc. }
  destruct (finalizers_observe_transport s rec r st) as (new & Hnew & Hcode & _).
  assert (new = earlier ++
            [CallWriteHeader (default 500 (error_StatusCoder e));
             CallWrite (error_rendering e).2 n err]) as ->
    by (apply (app_inv_head (Calls rec)); by rewrite <- Hnew, Hcalls).
  rewrite last_status_rendered in Hcode.
  rewrite trace_eq, decide_True, Ho by done. cbv zeta. rewrite Hcode.
  eexists _, earlier, n, err. split; [reflexivity |]. by rewrite ServeHTTP_writer.
Qed.

Lemma ServeHTTP_encode_failure_code_witness :
  errorEncoder sample.watched_half_written_server = DefaultErrorEncoder sample.canon /\
  outcome_of sample.watched_half_written_server sample.request (Context sample.request) tt
    sample.transport = EncodeFailed sample.boom /\
  (0 < length (finalizer sample.watched_half_written_server))%nat /\
  exists ctx,
    trace sample.watched_half_written_server sample.transport sample.request tt =
    [EvDecode None; EvHandle None; EvEncode (Some sample.boom);
     EvErrorHandler sample.boom; EvErrorEncoder sample.boom; EvFinalizer 0 ctx 500].
Proof.
  assert (outcome_of sample.watched_half_written_server sample.request
            (Context sample.request) tt sample.transport = EncodeFailed sample.boom)
    as Ho by reflexivity.
  assert (0 < length (finalizer sample.watched_half_written_server))%nat as Hfin
    by (simpl; lia).
  split; [reflexivity |]. split; [exact Ho |]. split; [exact Hfin |].
  destruct (ServeHTTP_encode_failure_code sample.canon sample.watched_half_written_server
              sample.transport sample.request tt sample.boom eq_refl Ho Hfin)
    as (ctx & _ & _ & _ & Htr & _).
  exists ctx. exact Htr.
Defined.

(** ** batch.Chunk *)

Module batch_facts.
Import batch.

Section ChunkFacts.
Context {T St : Type}.
Implicit Types (exec : @Exec T St) (items : list T) (calls : list (list T)).

Lemma length_concat_full (size : Z) (cs : list (list T)) :
  Forall (fun c => Z.of_nat (length c) = size) cs ->
  Z.of_nat (length (concat cs)) = size * Z.of_nat (length cs).
Proof.
  induction 1 as [| c cs Hc _ IH]; simpl; [lia |].
  rewrite length_app. lia.
Qed.

(** One iteration, started with [counter] the length of a bucket that is
    not full. *)
Lemma iteration_step size exec item b errs0 st calls :
  1 <= size < 2 ^ 63 ->
  Z.of_nat (length b) < size ->
  iteration_allocated size (observe_exec exec)
    {| bucket := b; counter := Z.of_nat (length b); errs := errs0;
       exec_state := (st, calls) |} item =
  if decide (Z.of_nat (length (b ++ [item])) = size) then
    {| bucket := []; counter := Z.of_nat (length (@nil T));
       errs := errs0 ++ [(exec (b ++ [item]) st).1];
       exec_state := ((exec (b ++ [item]) st).2, calls ++ [b ++ [item]]) |}
  else
    {| bucket := b ++ [item]; counter := Z.of_nat (length (b ++ [item]));
       errs := errs0; exec_state := (st, calls) |}.
Proof.
  intros Hsize Hb. unfold iteration_allocated. cbn [bucket counter errs exec_state].
  assert (Z.of_nat (length (b ++ [item])) = Z.of_nat (length b) + 1) as ->.
  { rewrite length_app. simpl. lia. }
  rewrite wrap64_small by (unfold in_int64; lia).
  case_decide; [| done]. unfold observe_exec. cbn [fst snd].
  by destruct (exec (b ++ [item]) st).
Qed.

(** The loop invariant: the bucket holds fewer than [size] items and
    [counter] is its length; the slices passed to [exec] so far are full
    and, followed by the bucket, make up the items received so far. *)
Lemma loop_invariant size exec items b errs0 st calls :
  1 <= size < 2 ^ 63 ->
  Z.of_nat (length b) < size ->
  exists new,
    (exec_state (foldl (iteration_allocated size (observe_exec exec))
       {| bucket := b; counter := Z.of_nat (length b); errs := errs0;
          exec_state := (st, calls) |} items)).2 = calls ++ new /\
    Forall (fun c => Z.of_nat (length c) = size) new /\
    concat new ++
      bucket (foldl (iteration_allocated size (observe_exec exec))
        {| bucket := b; counter := Z.of_nat (length b); errs := errs0;
           exec_state := (st, calls) |} items) = b ++ items /\
    Z.of_nat (length (bucket (foldl (iteration_allocated size (observe_exec exec))
        {| bucket := b; counter := Z.of_nat (length b); errs := errs0;
           exec_state := (st, calls) |} items))) < size.
Proof.
  intros Hsize. revert b errs0 st calls.
  induction items as [| item items IH]; intros b errs0 st calls Hb.
  - exists []. simpl. by rewrite !app_nil_r.
  - cbn [foldl]. rewrite iteration_step by done. case_decide as Hfull.
    + destruct (IH [] (errs0 ++ [(exec (b ++ [item]) st).1]) (exec (b ++ [item]) st).2
                  (calls ++ [b ++ [item]])) as (new & Hcalls & Hnew & Hcat & Hlt);
        [simpl; lia |].
      exists ((b ++ [item]) :: new). split_and!.
      * by rewrite Hcalls, <- app_assoc.
      * by constructor.
      * cbn [concat]. rewrite <- !app_assoc. f_equal. simpl. f_equal. exact Hcat.
      * done.
    + destruct (IH (b ++ [item]) errs0 st calls) as (new & Hcalls & Hnew & Hcat & Hlt).
      { rewrite length_app in *. simpl in *. lia. }
      exists new. split_and!; try done. by rewrite Hcat, <- app_assoc.
Qed.

(** The slices [exec] is invoked with: full ones, then the rest if any. *)
Lemma invocations_shape size exec items st :
  1 <= size < 2 ^ 63 ->
  exists full rest,
    invocations_allocated size items exec st = full ++ (if decide (rest = []) then [] else [rest]) /\
    Forall (fun c => Z.of_nat (length c) = size) full /\
    Z.of_nat (length rest) < size /\
    concat full ++ rest = items.
Proof.
  intros Hsize. unfold invocations_allocated, Chunk_allocated.
  destruct (loop_invariant size exec items [] [] st [] Hsize) as
    (new & Hcalls & Hnew & Hcat & Hlt); [simpl; lia |].
  change (Z.of_nat (length (@nil T))) with 0 in Hcalls, Hcat, Hlt.
  simpl in Hcalls, Hcat.
  set (v := foldl _ _ items) in *.
  exists new, (bucket v). split_and!; try done.
  case_decide as Hne.
  - unfold observe_exec. destruct (exec (bucket v) (exec_state v).1) as [err st'].
    cbn [fst snd]. rewrite Hcalls. rewrite decide_False; [done |].
    intros E. by rewrite E in Hne.
  - cbn [snd]. rewrite Hcalls, decide_True; [by rewrite app_nil_r |].
    destruct (bucket v); [done |]. simpl in Hne. lia.
Qed.
End ChunkFacts.

(** The slices of the goroutine once its buckets are allocated. *)
Lemma invocations_allocated_spec {T St} (size : Z) (items : list T) (exec : @Exec T St) (st : St) :
1 <= size < 2 ^ 63 ->
let cs := invocations_allocated size items exec st in
Z.of_nat (length cs) = ceil_div (Z.of_nat (length items)) size /\
(forall i c, cs !! i = Some c -> (S i < length cs)%nat -> Z.of_nat (length c) = size) /\
(forall c, last cs = Some c -> 1 <= Z.of_nat (length c) <= size) /\
Forall (fun c => c <> []) cs /\
(items = [] -> cs = []) /\
concat cs = items.
Proof.
intros Hsize cs.
destruct (invocations_shape size exec items st Hsize) as (full & rest & Hcs & Hfull & Hrest & Hcat).
fold cs in Hcs. clearbody cs. subst cs.
pose proof (length_concat_full size full Hfull) as Hlen.
assert (Z.of_nat (length items) = size * Z.of_nat (length full) + Z.of_nat (length rest))
  as Hn by (rewrite <- Hcat, length_app; lia).
assert (forall c, c ∈ full -> Z.of_nat (length c) = size) as Hin
  by (by apply Forall_forall).
split_and!.
- unfold ceil_div. rewrite Hn. case_decide as Hr.
  + subst rest. rewrite app_nil_r. simpl.
    apply (Z.div_unique _ _ _ (size - 1)); lia.
  + rewrite length_app. simpl.
    assert (0 < Z.of_nat (length rest)) by (destruct rest; [done | simpl; lia]).
    apply (Z.div_unique _ _ _ (Z.of_nat (length rest) - 1)); lia.
- intros i c Hi Hlt. apply Hin.
  assert (i < length full)%nat as Hi'.
  { rewrite length_app in Hlt. case_decide; simpl in Hlt; lia. }
  rewrite lookup_app_l in Hi by done. by eapply list_elem_of_lookup_2.
- intros c Hc. case_decide as Hr.
  + rewrite app_nil_r in Hc. apply last_Some_elem_of, Hin in Hc. lia.
  + rewrite last_snoc in Hc. injection Hc as <-.
    destruct rest; [done | simpl in *; lia].
- apply Forall_app. split.
  + eapply Forall_impl; [exact Hfull |]. intros c Hc ->. simpl in Hc. lia.
  + case_decide; [done |]. by constructor.
- intros ->. destruct full as [| c full].
  + simpl in Hcat. subst rest. by rewrite decide_True.
  + exfalso. pose proof (Hin c ltac:(by left)) as Hc.
    destruct c; [simpl in Hc; lia | discriminate Hcat].
- rewrite concat_app, <- Hcat. f_equal. case_decide as Hr; [by subst rest |].
  simpl. by rewrite app_nil_r.
Qed.

(** Observing [exec] changes neither the errors sent nor its final state. *)
Lemma Chunk_allocated_observed {T St} (size : Z) (items : list T) (exec : @Exec T St) (st : St)
  (calls : list (list T)) :
(Chunk_allocated size items (observe_exec exec) (st, calls)).1 = (Chunk_allocated size items exec st).1 /\
(Chunk_allocated size items (observe_exec exec) (st, calls)).2.1 = (Chunk_allocated size items exec st).2.
Proof.
unfold Chunk_allocated.
assert (forall v v',
  bucket v' = bucket v -> counter v' = counter v -> errs v' = errs v ->
  (exec_state v').1 = exec_state v ->
  let w := foldl (iteration_allocated size exec) v items in
  let w' := foldl (iteration_allocated size (observe_exec exec)) v' items in
  bucket w' = bucket w /\ errs w' = errs w /\ (exec_state w').1 = exec_state w) as Hsim.
{ induction items as [| item items IH]; intros v v' Hb Hc He Hs; [done |].
  cbn [foldl]. apply IH; unfold iteration_allocated; rewrite Hb, Hc, He;
    (case_decide; [| done]); unfold observe_exec; rewrite Hs;
    by destruct (exec (bucket v ++ [item]) (exec_state v)). }
destruct (Hsim {| bucket := []; counter := 0; errs := []; exec_state := st |}
               {| bucket := []; counter := 0; errs := []; exec_state := (st, calls) |})
  as (Hb & He & Hs); [done.. |].
set (w := foldl (iteration_allocated size exec) _ items) in *.
set (w' := foldl (iteration_allocated size (observe_exec exec)) _ items) in *.
clearbody w w'. rewrite Hb, He. case_decide; [| done].
unfold observe_exec. rewrite Hs.
by destruct (exec _ _).
Qed.

(** ** More on the allocated goroutine *)

Section ChunkSlices.
Context {T St St' : Type}.

(** Two runs of the loop that start with the same bucket and counter pass
    the same slices to their [exec] functions, whatever those do. *)
Lemma slices_sim (size : Z) (exec : @Exec T St) (exec' : @Exec T St') (items : list T)
    (v : @vars T (St * list (list T))) (v' : @vars T (St' * list (list T))) :
  bucket v = bucket v' -> counter v = counter v' ->
  exists d,
    (exec_state (foldl (iteration_allocated size (observe_exec exec)) v items)).2 =
      (exec_state v).2 ++ d /\
    (exec_state (foldl (iteration_allocated size (observe_exec exec')) v' items)).2 =
      (exec_state v').2 ++ d /\
    bucket (foldl (iteration_allocated size (observe_exec exec)) v items) =
      bucket (foldl (iteration_allocated size (observe_exec exec')) v' items) /\
    counter (foldl (iteration_allocated size (observe_exec exec)) v items) =
      counter (foldl (iteration_allocated size (observe_exec exec')) v' items).
Proof.
  revert v v'. induction items as [| item items IH]; intros v v' Hb Hc.
  - exists []. by rewrite !app_nil_r.
  - cbn [foldl].
    assert (exists d0,
      (exec_state (iteration_allocated size (observe_exec exec) v item)).2 = (exec_state v).2 ++ d0 /\
      (exec_state (iteration_allocated size (observe_exec exec') v' item)).2 =
        (exec_state v').2 ++ d0 /\
      bucket (iteration_allocated size (observe_exec exec) v item) =
        bucket (iteration_allocated size (observe_exec exec') v' item) /\
      counter (iteration_allocated size (observe_exec exec) v item) =
        counter (iteration_allocated size (observe_exec exec') v' item)) as (d0 & H0 & H0' & Hb' & Hc').
    { unfold iteration_allocated. rewrite Hb, Hc. case_decide.
      - exists [bucket v' ++ [item]]. unfold observe_exec.
        by destruct (exec _ _), (exec' _ _).
      - exists []. by rewrite !app_nil_r. }
    set (w := iteration_allocated size (observe_exec exec) v item) in *.
    set (w' := iteration_allocated size (observe_exec exec') v' item) in *.
    clearbody w w'.
    destruct (IH w w' Hb' Hc') as (d & Hd & Hd' & Hb'' & Hc'').
    exists (d0 ++ d). rewrite Hd, Hd', H0, H0'. by rewrite <- !app_assoc.
Qed.
End ChunkSlices.

Section ChunkMore.
Context {T St : Type}.
Implicit Types (exec : @Exec T St) (items : list T).

(** The invocations are those of the loop, then one with the bucket if it
    is not empty. *)
Lemma invocations_unfold size exec items st :
  invocations_allocated size items exec st =
  (exec_state (foldl (iteration_allocated size (observe_exec exec))
     {| bucket := []; counter := 0; errs := []; exec_state := (st, []) |} items)).2 ++
  (if decide (length (bucket (foldl (iteration_allocated size (observe_exec exec))
        {| bucket := []; counter := 0; errs := []; exec_state := (st, []) |} items))
              ≠ 0%nat)
   then [bucket (foldl (iteration_allocated size (observe_exec exec))
        {| bucket := []; counter := 0; errs := []; exec_state := (st, []) |} items)]
   else []).
Proof.
  unfold invocations_allocated, Chunk_allocated.
  set (v := foldl _ _ items). clearbody v. case_decide.
  - unfold observe_exec. by destruct (exec _ _).
  - by rewrite app_nil_r.
Qed.

(** Under the loop invariant [counter] stays the length of the bucket. *)
Lemma loop_counter size exec items b errs0 st calls :
  1 <= size < 2 ^ 63 ->
  Z.of_nat (length b) < size ->
  counter (foldl (iteration_allocated size (observe_exec exec))
    {| bucket := b; counter := Z.of_nat (length b); errs := errs0;
       exec_state := (st, calls) |} items) =
  Z.of_nat (length (bucket (foldl (iteration_allocated size (observe_exec exec))
    {| bucket := b; counter := Z.of_nat (length b); errs := errs0;
       exec_state := (st, calls) |} items))).
Proof.
  intros Hsize. revert b errs0 st calls.
  induction items as [| item items IH]; intros b errs0 st calls Hb; [done |].
  cbn [foldl]. rewrite iteration_step by done. case_decide.
  - apply IH. simpl. lia.
  - apply IH. rewrite length_app in *. simpl in *. lia.
Qed.

End ChunkMore.

Lemma slices_independent_allocated {T St St'} (size : Z) (items : list T)
    (exec : @Exec T St) (exec' : @Exec T St') (st : St) (st' : St') :
  invocations_allocated size items exec st = invocations_allocated size items exec' st'.
Proof.
  rewrite !invocations_unfold.
  destruct (slices_sim size exec exec' items
              {| bucket := []; counter := 0; errs := []; exec_state := (st, []) |}
              {| bucket := []; counter := 0; errs := []; exec_state := (st', []) |})
    as (d & -> & -> & -> & _); done.
Qed.

Lemma errors_allocated {T St} (size : Z) (items : list T) (f : list T -> option error)
    (g : list T -> St -> St) (st : St) :
  let exec := fun items st => (f items, g items st) in
  (Chunk_allocated size items exec st).1 = map f (invocations_allocated size items exec st).
Proof.
  intros exec. destruct (Chunk_allocated_observed size items exec st []) as [<- _].
  unfold invocations_allocated, Chunk_allocated.
  assert (forall v : @vars T (St * list (list T)),
    errs v = map f (exec_state v).2 ->
    errs (foldl (iteration_allocated size (observe_exec exec)) v items) =
    map f (exec_state (foldl (iteration_allocated size (observe_exec exec)) v items)).2) as Hinv.
  { induction items as [| item items IH]; intros v Hv; [done |].
    cbn [foldl]. apply IH. unfold iteration_allocated. case_decide; [| done].
    cbn [errs exec_state snd observe_exec exec fst]. by rewrite map_app, Hv. }
  specialize (Hinv {| bucket := []; counter := 0; errs := []; exec_state := (st, []) |}
                   eq_refl).
  set (v := foldl _ _ items) in *. clearbody v. case_decide; [| done].
  cbn [observe_exec exec fst snd]. by rewrite map_app, Hinv.
Qed.

Lemma invocations_allocated_app {T St} (size k : Z) (items1 items2 : list T) (exec : @Exec T St) (st : St) :
  1 <= size < 2 ^ 63 ->
  Z.of_nat (length items1) = k * size ->
  invocations_allocated size (items1 ++ items2) exec st =
  invocations_allocated size items1 exec st ++ invocations_allocated size items2 exec st.
Proof.
  intros Hsize Hk. rewrite !invocations_unfold, foldl_app.
  destruct (loop_invariant size exec items1 [] [] st [] Hsize) as
    (new & Hcalls & Hnew & Hcat & Hlt); [simpl; lia |].
  pose proof (loop_counter size exec items1 [] [] st [] Hsize) as Hcount.
  change (Z.of_nat (length (@nil T))) with 0 in Hcalls, Hcat, Hlt, Hcount.
  specialize (Hcount ltac:(lia)).
  set (v1 := foldl (iteration_allocated size (observe_exec exec)) _ items1) in *.
  assert (bucket v1 = []) as Hb.
  { pose proof (length_concat_full size new Hnew) as Hlen.
    assert (Z.of_nat (length items1) =
            size * Z.of_nat (length new) + Z.of_nat (length (bucket v1))) as Hn.
    { simpl in Hcat. rewrite <- Hcat, length_app. lia. }
    destruct (bucket v1) as [| x b]; [done |]. exfalso.
    rewrite length_cons, Nat2Z.inj_succ in Hlt, Hn.
    assert (k - Z.of_nat (length new) <= 0 \/ 1 <= k - Z.of_nat (length new)) as [? | ?]
      by lia; nia. }
  rewrite Hb in Hcount. simpl in Hcount.
  destruct (slices_sim size exec exec items2 v1
              {| bucket := []; counter := 0; errs := []; exec_state := (st, []) |})
    as (d & -> & -> & -> & _); [done | done |].
  rewrite Hb. rewrite (decide_False (P := length (@nil T) ≠ 0%nat))
    by (intros Hne; by apply Hne).
  rewrite app_nil_r. simpl. by rewrite <- app_assoc.
Qed.


(** ** The goroutine and its allocations *)

Section Allocation.
Context {T St : Type} `{Slices T}.
Implicit Types (exec : @Exec T St) (items : list T).

Lemma make_bucket_Some size (b : list T) :
  make_bucket size = Some b ->
  b = [] /\ 0 <= size /\ Z.of_N elem_size * size <= Z.of_N maxAlloc.
Proof. unfold make_bucket. case_decide; [| done]. by intros [= <-]. Qed.

Lemma make_bucket_None size :
  make_bucket (T := T) size = None ->
  size < 0 \/ Z.of_N maxAlloc < Z.of_N elem_size * size.
Proof. unfold make_bucket. case_decide; [done |]. intros _. lia. Qed.

Lemma make_bucket_ok size :
  0 <= size -> Z.of_N elem_size * size <= Z.of_N maxAlloc ->
  make_bucket (T := T) size = Some [].
Proof. intros. unfold make_bucket. by rewrite decide_True. Qed.

(** Once the first [make] has succeeded every later one does. *)
Lemma range_items_allocated size exec items v :
  make_bucket (T := T) size = Some [] ->
  range_items size exec items v = Some (foldl (iteration_allocated size exec) v items).
Proof.
  intros Hmake. revert v. induction items as [| item items IH]; intros v; [done |].
  cbn [range_items foldl].
  assert (iteration size exec v item = Some (iteration_allocated size exec v item)) as ->.
  { unfold iteration, iteration_allocated. case_decide; [| done].
    destruct (exec _ _). by rewrite Hmake. }
  apply IH.
Qed.

Lemma Chunk_Some size exec items st :
  make_bucket (T := T) size = Some [] ->
  Chunk size items exec st = Some (Chunk_allocated size items exec st).
Proof.
  intros Hmake. unfold Chunk, Chunk_allocated. rewrite Hmake. cbn.
  rewrite range_items_allocated by done. cbn.
  case_decide; [| done]. by destruct (exec _ _).
Qed.

Lemma Chunk_None size exec items st :
  make_bucket (T := T) size = None -> Chunk size items exec st = None.
Proof. intros Hmake. unfold Chunk. by rewrite Hmake. Qed.

(** The goroutine panics exactly when its first [make] does, that is before
    it has read an item or invoked [exec]. *)
Lemma Chunk_panics_iff size exec items st :
  Chunk size items exec st = None <-> make_bucket (T := T) size = None.
Proof.
  split; [| apply Chunk_None].
  intros Hpanic. destruct (make_bucket (T := T) size) as [b |] eqn:Hmake; [| done].
  destruct (make_bucket_Some _ _ Hmake) as (-> & _ & _).
  by rewrite Chunk_Some in Hpanic.
Qed.
End Allocation.

Lemma invocations_Some {T St} `{Slices T} size (items : list T) (exec : @Exec T St) st :
  make_bucket (T := T) size = Some [] ->
  invocations size items exec st = invocations_allocated size items exec st.
Proof. intros Hmake. unfold invocations. by rewrite Chunk_Some. Qed.

Lemma invocations_None {T St} `{Slices T} size (items : list T) (exec : @Exec T St) st :
  make_bucket (T := T) size = None -> invocations size items exec st = [].
Proof. intros Hmake. unfold invocations. by rewrite Chunk_None. Qed.

Lemma make_bucket_cases {T} `{Slices T} size :
  make_bucket (T := T) size = Some [] \/ make_bucket (T := T) size = None.
Proof. unfold make_bucket. case_decide; auto. Qed.

(** C10. Take a chunk size [s] that is at least 1 (and is an [int]), a
    finite input of [n] items, the input channel closed after them and
    every error received. When [make] can allocate a bucket of [s] items,
    the goroutine ends without a panic and [exec] is invoked ceiling(n/s)
    times: every invocation but the last gets exactly [s] items, the last
    gets between 1 and [s], none gets an empty slice, there is none at all
    for an empty input, and the slices, put together in the order of the
    invocations, are the input. When [make] cannot, the goroutine panics
    before it reads an item and [exec] is never invoked. *)
Theorem Chunk_invocations {T St} `{Slices T} (size : Z) (items : list T) (exec : @Exec T St)
    (st : St) :
  1 <= size < 2 ^ 63 ->
  let cs := invocations size items exec st in
  (Z.of_N elem_size * size <= Z.of_N maxAlloc ->
   is_Some (Chunk size items exec st) /\
   Z.of_nat (length cs) = ceil_div (Z.of_nat (length items)) size /\
   (forall i c, cs !! i = Some c -> (S i < length cs)%nat -> Z.of_nat (length c) = size) /\
   (forall c, last cs = Some c -> 1 <= Z.of_nat (length c) <= size) /\
   Forall (fun c => c <> []) cs /\
   (items = [] -> cs = []) /\
   concat cs = items) /\
  (Z.of_N maxAlloc < Z.of_N elem_size * size ->
   Chunk size items exec st = None /\ cs = []).
Proof.
  intros Hsize cs. subst cs. split.
  - intros Halloc.
    assert (make_bucket (T := T) size = Some []) as Hmake by (apply make_bucket_ok; lia).
    rewrite invocations_Some, Chunk_Some by done. split; [done |].
    by apply invocations_allocated_spec.
  - intros Halloc.
    assert (make_bucket (T := T) size = None) as Hmake.
    { unfold make_bucket. rewrite decide_False; [done | lia]. }
    by rewrite invocations_None, Chunk_None.
Qed.

Example chunks_of_two :
  invocations 2 [1; 2; 3; 4; 5] (fun _ (st : unit) => (None, st)) tt =
  [[1; 2]; [3; 4]; [5]].
Proof. reflexivity. Qed.

Lemma Chunk_invocations_witness :
  1 <= 2 < 2 ^ 63 /\
  Z.of_N (elem_size (T := Z)) * 2 <= Z.of_N (maxAlloc (T := Z)) /\
  Z.of_nat (length (invocations 2 [1; 2; 3] (fun _ (st : unit) => (None, st)) tt)) =
    ceil_div 3 2 /\
  concat (invocations 2 [1; 2; 3] (fun _ (st : unit) => (None, st)) tt) = [1; 2; 3] /\
  1 <= 2 ^ 62 < 2 ^ 63 /\
  Z.of_N (maxAlloc (T := Z)) < Z.of_N (elem_size (T := Z)) * 2 ^ 62 /\
  invocations (2 ^ 62) [1; 2; 3] (fun _ (st : unit) => (None, st)) tt = [].
Proof.
  assert (1 <= 2 < 2 ^ 63) as Hsize by lia.
  assert (Z.of_N (elem_size (T := Z)) * 2 <= Z.of_N (maxAlloc (T := Z))) as Halloc
    by (simpl; lia).
  assert (1 <= 2 ^ 62 < 2 ^ 63) as Hsize' by lia.
  assert (Z.of_N (maxAlloc (T := Z)) < Z.of_N (elem_size (T := Z)) * 2 ^ 62) as Halloc'
    by (simpl; lia).
  split; [exact Hsize |]. split; [exact Halloc |].
  destruct (Chunk_invocations 2 [1; 2; 3] (fun _ (st : unit) => (None, st)) tt Hsize)
    as [Hok _].
  destruct (Hok Halloc) as (_ & Hlen & _ & _ & _ & _ & Hcat).
  split; [exact Hlen |]. split; [exact Hcat |].
  split; [exact Hsize' |]. split; [exact Halloc' |].
  destruct (Chunk_invocations (2 ^ 62) [1; 2; 3] (fun _ (st : unit) => (None, st)) tt Hsize')
    as [_ Hpanic].
  exact (proj2 (Hpanic Halloc')).
Defined.

(** With the largest [int] as chunk size and one [int] to process, the
    goroutine panics in [make] and [exec] is not invoked, where
    ceiling(1/s) is 1. *)
Lemma Chunk_invocations_counterexample :
  1 <= 2 ^ 63 - 1 /\
  Chunk (2 ^ 63 - 1) [7] (fun _ (st : unit) => (None, st)) tt = None /\
  invocations (2 ^ 63 - 1) [7] (fun _ (st : unit) => (None, st)) tt = [] /\
  ceil_div (Z.of_nat (length [7])) (2 ^ 63 - 1) = 1 /\
  Z.of_nat (length (invocations (2 ^ 63 - 1) [7] (fun _ (st : unit) => (None, st)) tt)) <>
    ceil_div (Z.of_nat (length [7])) (2 ^ 63 - 1).
Proof. split_and!; [lia | reflexivity | reflexivity | reflexivity | by vm_compute]. Qed.

(** X13. Which slices [exec] is invoked with depends on the chunk size and
    the input only: not on what [exec] does or returns, failures included,
    and not on the state it runs in. *)
Theorem Chunk_slices_independent {T St St'} `{Slices T} (size : Z) (items : list T)
    (exec : @Exec T St) (exec' : @Exec T St') (st : St) (st' : St') :
  invocations size items exec st = invocations size items exec' st'.
Proof.
  destruct (make_bucket_cases (T := T) size) as [Hmake | Hmake].
  - rewrite !invocations_Some by done. apply slices_independent_allocated.
  - by rewrite !invocations_None.
Qed.

(** X14. Every result of [exec] is sent on the result channel, in the order
    of the invocations and nothing else: for an [exec] whose result is [f]
    of its slice, the errors sent are [f] of the slices it was invoked
    with. *)
Theorem Chunk_errors {T St} `{Slices T} (size : Z) (items : list T)
    (f : list T -> option error) (g : list T -> St -> St) (st : St) :
  let exec := fun items st => (f items, g items st) in
  errors_sent size items exec st = map f (invocations size items exec st).
Proof.
  intros exec. unfold errors_sent.
  destruct (make_bucket_cases (T := T) size) as [Hmake | Hmake].
  - rewrite invocations_Some, Chunk_Some by done. apply errors_allocated.
  - by rewrite invocations_None, Chunk_None.
Qed.

(** X15. Chunking composes over inputs cut at a multiple of the chunk size:
    when the first part holds a whole number of chunks, the slices for the
    whole input are those for the first part followed by those for the
    rest. *)
Theorem Chunk_app {T St} `{Slices T} (size k : Z) (items1 items2 : list T)
    (exec : @Exec T St) (st : St) :
  1 <= size < 2 ^ 63 ->
  Z.of_nat (length items1) = k * size ->
  invocations size (items1 ++ items2) exec st =
  invocations size items1 exec st ++ invocations size items2 exec st.
Proof.
  intros Hsize Hk. destruct (make_bucket_cases (T := T) size) as [Hmake | Hmake].
  - rewrite !invocations_Some by done. by eapply invocations_allocated_app.
  - by rewrite !invocations_None.
Qed.

Lemma Chunk_app_witness :
  1 <= 2 < 2 ^ 63 /\
  Z.of_nat (length [1; 2; 3; 4]) = 2 * 2 /\
  invocations 2 ([1; 2; 3; 4] ++ [5]) (fun _ (st : unit) => (None, st)) tt =
  invocations 2 [1; 2; 3; 4] (fun _ (st : unit) => (None, st)) tt ++
  invocations 2 [5] (fun _ (st : unit) => (None, st)) tt.
Proof.
  assert (1 <= 2 < 2 ^ 63) as Hsize by lia.
  assert (Z.of_nat (length [1; 2; 3; 4]) = 2 * 2) as Hk by reflexivity.
  split; [exact Hsize |]. split; [exact Hk |].
  exact (Chunk_app 2 2 [1; 2; 3; 4] [5] (fun _ (st : unit) => (None, st)) tt Hsize Hk).
Defined.



(** ** Reduce *)

Section ReduceFacts.
Context {In Out St : Type}.
Implicit Types (reducer : @Reducer In Out St) (items : list In).

Lemma Reduce_from_app i items1 items2 reducer accum st :
  Reduce_from i (items1 ++ items2) reducer accum st =
  Reduce_from (i + Z.of_nat (length items1)) items2 reducer
    (Reduce_from i items1 reducer accum st).1 (Reduce_from i items1 reducer accum st).2.
Proof.
  revert i accum st. induction items1 as [| item items1 IH]; intros i accum st.
  - simpl. by rewrite Z.add_0_r.
  - cbn [app Reduce_from length]. destruct (reducer accum i item st) as [accum' st'].
    rewrite IH.
    by replace (i + 1 + Z.of_nat (length items1)) with (i + Z.of_nat (S (length items1)))
      by lia.
Qed.

Lemma Reduce_from_shift k i items reducer accum st :
  Reduce_from (k + i) items reducer accum st =
  Reduce_from i items (fun accum j => reducer accum (k + j)) accum st.
Proof.
  revert i accum st. induction items as [| item items IH]; intros i accum st; [done |].
  cbn [Reduce_from]. destruct (reducer accum (k + i) item st) as [accum' st'].
  rewrite <- IH. f_equal. lia.
Qed.

Lemma Reduce_from_observed i items reducer accum st log :
  Reduce_from i items (observe_reducer reducer) accum (st, log) =
  ((Reduce_from i items reducer accum st).1,
   ((Reduce_from i items reducer accum st).2,
    log ++ imap (fun j item => (i + Z.of_nat j, item)) items)).
Proof.
  revert i accum st log. induction items as [| item items IH]; intros i accum st log.
  - simpl. by rewrite app_nil_r.
  - cbn [Reduce_from imap]. unfold observe_reducer at 1. cbn [fst snd].
    destruct (reducer accum i item st) as [accum' st']. rewrite IH.
    do 2 f_equal. rewrite <- app_assoc. simpl. rewrite Z.add_0_r. do 2 f_equal.
    apply imap_ext. intros j x _. simpl. f_equal. lia.
Qed.
End ReduceFacts.

(** X17. [Reduce] composes over appended inputs: reducing [items1 ++ items2]
    is reducing [items1] and then, from the value and state that leaves,
    reducing [items2] with the indices continued after those of
    [items1]. *)
Theorem Reduce_app {In Out St} (items1 items2 : list In) (reducer : @Reducer In Out St)
    (initialValue : Out) (st : St) :
  Reduce (items1 ++ items2) reducer initialValue st =
  Reduce items2 (fun accum i => reducer accum (Z.of_nat (length items1) + i))
    (Reduce items1 reducer initialValue st).1 (Reduce items1 reducer initialValue st).2.
Proof.
  unfold Reduce. rewrite Reduce_from_app, <- Reduce_from_shift.
  by rewrite Z.add_0_l, Z.add_0_r.
Qed.

(** X18. [Reduce] invokes the reducer once for every item, in the order of
    the items, each time with the position of the item as index, counted
    from 0, whatever the reducer returns; an empty input never invokes it.
    Noting the invocations changes neither the value nor the state that
    result. *)
Theorem Reduce_invocations {In Out St} (items : list In) (reducer : @Reducer In Out St)
    (initialValue : Out) (st : St) :
  let observed := Reduce items (observe_reducer reducer) initialValue (st, []) in
  observed.2.2 = imap (fun j item => (Z.of_nat j, item)) items /\
  observed.1 = (Reduce items reducer initialValue st).1 /\
  observed.2.1 = (Reduce items reducer initialValue st).2.
Proof.
  intros observed. subst observed. unfold Reduce. by rewrite Reduce_from_observed.
Qed.
End batch_facts.
